(** * Free-space propagation of a focusing Gaussian beam: the example script

    A shallow embedding of
    [examples/example_FreeSpacePropagation_FocusingGaussian.py].

    Conventions.
    - A numpy [float64] is modelled as a real number ([R]); a [complex128]
      as a pair of reals.  Rounding, overflow, [nan] and [inf] are outside
      the model.
    - A one-dimensional array is a [list]; two- and three-dimensional
      arrays are nested lists in C order (first axis outermost).
    - The names imported from [beamPropagator_source] ([um], [get_zr],
      [make_inputBeam], [shadow], ...) are not part of the file: they are
      variables of the sections below. *)

From Stdlib Require Import Reals Lra Lia.
From stdpp Require Import base option list strings gmap.

Open Scope R_scope.

(** ** Complex numbers *)

Module Cplx.

Definition C : Type := R * R.

Definition Cre (c : C) : R := fst c.
Definition Cim (c : C) : R := snd c.

Definition RtoC (r : R) : C := (r, 0).

(** The Python literal [1j]. *)
Definition Ci : C := (0, 1).

Definition Copp (c : C) : C := (- fst c, - snd c).

Definition Cplus (c d : C) : C := (fst c + fst d, snd c + snd d).

Definition Cmult (c d : C) : C :=
  (fst c * fst d - snd c * snd d, fst c * snd d + snd c * fst d).

(** [np.exp] at a complex argument. *)
Definition Cexp (c : C) : C := (exp (fst c) * cos (snd c), exp (fst c) * sin (snd c)).

(** [np.abs] at a complex argument. *)
Definition Cmod (c : C) : R := sqrt (fst c ^ 2 + snd c ^ 2).

End Cplx.

Import Cplx.

(** ** The numpy operations the script uses *)

Module Np.

(** [np.linspace(start, stop, num)] with the default [endpoint=True]:
    [arange(num) * step + start], the last entry overwritten by [stop]. *)
Definition linspace (start stop : R) (num : nat) : list R :=
  let div := (num - 1)%nat in
  let delta := stop - start in
  let ar := INR <$> seq 0 num in
  let y :=
    if decide (0 < div)%nat then
      let step := delta / INR div in
      if Req_dec_T step 0
      then (fun i : R => i / INR div * delta + start) <$> ar
      else (fun i : R => i * step + start) <$> ar
    else (fun i : R => i * delta + start) <$> ar in
  if decide (1 < num)%nat then <[(num - 1)%nat := stop]> y else y.

(** [np.meshgrid(x, y)] (Cartesian indexing): both results have
    [len(y)] rows and [len(x)] columns. *)
Definition meshgrid (x y : list R) : list (list R) * list (list R) :=
  ((fun _ : R => x) <$> y, (fun yi : R => (fun _ : R => yi) <$> x) <$> y).

(** [np.zeros((n0, n1, n2))] and [np.ones((n0, n1, n2))]. *)
Definition zeros3 (n0 n1 n2 : nat) : list (list (list R)) :=
  replicate n0 (replicate n1 (replicate n2 0)).

Definition ones3 (n0 n1 n2 : nat) : list (list (list R)) :=
  replicate n0 (replicate n1 (replicate n2 1)).

(** [np.zeros_like] of a two-dimensional array, as [float64]. *)
Definition zeros_like2 {A} (a : list (list A)) : list (list R) :=
  (fun row : list A => (fun _ : A => 0) <$> row) <$> a.

(** A scalar applied to every entry. *)
Definition map2d {A B} (f : A -> B) (a : list (list A)) : list (list B) :=
  (fun row : list A => f <$> row) <$> a.

Definition map3d {A B} (f : A -> B) (a : list (list (list A)))
  : list (list (list B)) :=
  map2d f <$> a.

(** An elementwise binary operation on arrays of equal length; [None]
    stands for the shapes numpy does not accept as they are (it would
    broadcast or raise). *)
Fixpoint zip_strict {A B D} (f : A -> B -> option D) (l : list A) (k : list B)
  : option (list D) :=
  match l, k with
  | [], [] => Some []
  | a :: l', b :: k' =>
      match f a b, zip_strict f l' k' with
      | Some d, Some r => Some (d :: r)
      | _, _ => None
      end
  | _, _ => None
  end.

Definition binop1 {A B D} (f : A -> B -> D) : list A -> list B -> option (list D) :=
  zip_strict (fun a b => Some (f a b)).

Definition binop2 {A B D} (f : A -> B -> D)
  : list (list A) -> list (list B) -> option (list (list D)) :=
  zip_strict (binop1 f).

(** [np.max] of a one-dimensional array; it raises on an empty one. *)
Definition max (f : list R) : option R :=
  match f with
  | [] => None
  | v :: f' => Some (foldl Rmax v f')
  end.

Definition min (f : list R) : option R :=
  match f with
  | [] => None
  | v :: f' => Some (foldl Rmin v f')
  end.

(** [np.argmin]: the first index that attains the minimum. *)
Fixpoint argmin_from (best : nat) (vbest : R) (i : nat) (f : list R) : nat :=
  match f with
  | [] => best
  | v :: f' =>
      if Rlt_dec v vbest then argmin_from i v (S i) f'
      else argmin_from best vbest (S i) f'
  end.

Definition argmin (f : list R) : option nat :=
  match f with
  | [] => None
  | v :: f' => Some (argmin_from 0 v 1 f')
  end.

(** The masked assignment [f[mask(f)] = c], the mask computed from the
    current content of [f]. *)
Definition assign_where (mask : R -> bool) (c : R) (f : list R) : list R :=
  (fun v : R => if mask v then c else v) <$> f.

(** [a[i][j][k]] on nested lists. *)
Definition get2 {A} (a : list (list A)) (i j : nat) : option A :=
  a !! i ≫= (fun row : list A => row !! j).

Definition get3 {A} (a : list (list (list A))) (i j k : nat) : option A :=
  a !! i ≫= (fun p : list (list A) => p !! j ≫= (fun row : list A => row !! k)).

(** [a.shape == (n0, n1)] and [a.shape == (n0, n1, n2)]. *)
Definition shape2 {A} (a : list (list A)) (n0 n1 : nat) : Prop :=
  length a = n0 /\ Forall (fun row : list A => length row = n1) a.

Definition shape3 {A} (a : list (list (list A))) (n0 n1 n2 : nat) : Prop :=
  length a = n0 /\ Forall (fun p : list (list A) => shape2 p n1 n2) a.

(** [a[:, j]]: the column [j] of a two-dimensional array; [None] is the
    [IndexError]. *)
Definition column {A} (a : list (list A)) (j : nat) : option (list A) :=
  mapM (fun row : list A => row !! j) a.

(** [a[:, j, k]] of a three-dimensional array. *)
Definition column3 {A} (a : list (list (list A))) (j k : nat) : option (list A) :=
  mapM (fun p : list (list A) => p !! j ≫= (fun row : list A => row !! k)) a.

(** [a[:, j, :]]. *)
Definition slice_mid {A} (a : list (list (list A))) (j : nat)
  : option (list (list A)) :=
  mapM (fun p : list (list A) => p !! j) a.

(** [a[:, :, k]]. *)
Definition slice_last {A} (a : list (list (list A))) (k : nat)
  : option (list (list A)) :=
  mapM (fun p : list (list A) => mapM (fun row : list A => row !! k) p) a.

(** [a[:, j] = f]: the column [j] of [a] overwritten by the
    one-dimensional [f] of the same length. *)
Definition set_column {A} (a : list (list A)) (j : nat) (f : list A)
  : option (list (list A)) :=
  zip_strict
    (fun (row : list A) (v : A) => if decide (j < length row)%nat then Some (<[j := v]> row) else None)
    a f.

End Np.

(** ** The dictionary [laserParameters] *)

Module LP.

Record t : Type := mk {
  lambda0 : R;            (* wavelength (m) *)
  tau : R;                (* pulse width (s) *)
  E0 : R;                 (* pulse energy (J) *)
  xOffset : R;
  yOffset : R;
  shape : string;
  n : nat;
  w0 : R;                 (* final waist size *)
  w_z0 : option R         (* the key added at line 56 *)
}.

Definition set_w_z0 (v : R) (p : t) : t :=
  mk (lambda0 p) (tau p) (E0 p) (xOffset p) (yOffset p) (shape p) (n p) (w0 p) (Some v).

End LP.

(** ** The values the script computes

    Each definition is one assignment of the script, under the name the
    script gives it; a name the script binds twice carries the line of the
    later binding ([zR_83], [inputBeam_91], ...). *)

Module Script.

Section Values.

(** The unit constants of [beamPropagator_source]. *)
Variables um fs : R.

(** The value [get_zr(laserParameters)] returned at line 45. *)
Variable zR : R.

(** The array [make_inputBeam(X, Y, laserParameters)] returned at
    line 75. *)
Variable inputBeam : list (list C).

Definition laserParameters_30 : LP.t :=
  {| LP.lambda0 := 0.800 * um;
     LP.tau := 100.0 * fs;
     LP.E0 := 1.0;
     LP.xOffset := 0.0 * um;
     LP.yOffset := 0.0 * um;
     LP.shape := "gaussian"%string;
     LP.n := 2;
     LP.w0 := 30.0 * um;
     LP.w_z0 := None |}.

Definition zMax : R := 2.0 * 3.0 * zR.
Definition zf : R := 3.0 * zR.
Definition z0 : R := - zf.
Definition Rz : R := z0 * (1.0 + (zR / z0) ^ 2).
Definition w0 : R := LP.w0 laserParameters_30.
Definition w_z0 : R := w0 * sqrt (1.0 + (z0 / zR) ^ 2).
Definition laserParameters : LP.t := LP.set_w_z0 w_z0 laserParameters_30.

Definition n_pts : nat := 512.
Definition res : R := 1 * um.
Definition nz : nat := 512.

(** [int(n_pts/2)]: the quotient is not negative, so truncation is the
    integer quotient. *)
Definition mid : nat := (n_pts / 2)%nat.

Definition x : list R := Np.linspace (- res * INR n_pts / 2) (res * INR n_pts / 2) n_pts.
Definition y : list R := Np.linspace (- res * INR n_pts / 2) (res * INR n_pts / 2) n_pts.
Definition X : list (list R) := fst (Np.meshgrid x y).
Definition Y : list (list R) := snd (Np.meshgrid x y).
Definition z : list R := Np.linspace 0 zMax nz.

Definition lambda0 : R := LP.lambda0 laserParameters.
Definition zR_83 : R := PI * w0 ^ 2 / lambda0.
Definition k : R := 2.0 * PI / lambda0.

(** The arrays [X] and [Y] as they are at line 87, after the call of
    [make_inputBeam] that received them. *)
Variables X_87 Y_87 : list (list R).

Definition R_sq : option (list (list R)) :=
  Np.binop2 Rplus (Np.map2d (fun v => v ^ 2) X_87) (Np.map2d (fun v => v ^ 2) Y_87).
Definition guoy : R := atan (z0 / zR_83).
Definition inputPhase : option (list (list R)) :=
  Np.map2d (fun r => k * r / (2.0 * Rz) - guoy) <$> R_sq.

(** The factor [np.exp(-1j * p)] at one entry [p] of [inputPhase]. *)
Definition phase_factor (p : R) : C := Cexp (Cmult (Copp Ci) (RtoC p)).

Definition inputBeam_91 : option (list (list C)) :=
  inputPhase ≫= (fun ph : list (list R) =>
    Np.binop2 Cmult inputBeam (Np.map2d phase_factor ph)).

(** Lines 119 to 134. *)
Definition ne : list (list (list R)) := Np.zeros3 n_pts n_pts nz.
Definition absorbingBoundaries : nat := 1.
Definition eta0 : R := 1.0.
Definition eta : list (list (list R)) :=
  Np.map3d (fun v => eta0 * v) (Np.ones3 n_pts n_pts (length z)).
Definition k0 : R := 2.0 * PI / LP.lambda0 laserParameters.

(** *** After the propagation

    [Field] is the array [propagate_in_z] returned and [z_136] the
    z-grid [setup_propagate] handed back at line 136. *)

(** [np.e ** (-2)]. *)
Definition e_m2 : R := powerRZ (exp 1) (-2).

Definition leb (a b : R) : bool := if Rle_dec a b then true else false.
Definition gtb (a b : R) : bool := if Rgt_dec a b then true else false.

(** The body of the loop at lines 182 to 186, for one [zi]. *)
Definition thresh_body (Field : list (list (list C))) (zi : nat) : option (list R) :=
  Np.column3 Field mid zi ≫= (fun f : list C =>
  let f := (fun c : C => Cmod c ^ 2) <$> f in
  Np.max f ≫= (fun top : R =>
  let f := Np.assign_where (fun v => leb v (top * e_m2)) 0.0 f in
  let f := Np.assign_where (fun v => gtb v (top * e_m2)) 1.0 f in
  Some f)).

(** The loop at lines 181 to 187 over the remaining indices [zis]. *)
Fixpoint thresh_loop (Field : list (list (list C))) (thresh : list (list R))
    (zis : list nat) : option (list (list R)) :=
  match zis with
  | [] => Some thresh
  | zi :: zis' =>
      thresh_body Field zi ≫= (fun f : list R =>
      Np.set_column thresh zi f ≫= (fun thresh' : list (list R) =>
      thresh_loop Field thresh' zis'))
  end.

(** [Field.shape[-1]]. *)
Definition shape_last {A} (a : list (list (list A))) : nat :=
  match a with
  | (row :: _) :: _ => length row
  | _ => 0%nat
  end.

Definition thresh (Field : list (list (list C))) : option (list (list R)) :=
  Np.slice_mid Field mid ≫= (fun sl : list (list C) =>
  thresh_loop Field (Np.zeros_like2 sl) (seq 0 (shape_last Field))).

(** Lines 190 to 194. *)
Definition w0_190 : R := w0 * 1.00.
Definition zR_191 : R := PI * w0_190 ^ 2 / lambda0.
Definition zf_192 : R := 3.0 * zR_191.
Definition zc (z_136 : list R) : list R := (fun v : R => v - zf_192) <$> z_136.

(** One entry of [w], at the entry [c] of [zc]. *)
Definition w_of_zc (c : R) : R := w0_190 * sqrt (1.0 + (c / zR_191) ^ 2).

Definition w (z_136 : list R) : list R := w_of_zc <$> zc z_136.

(** Lines 224 and 225. *)
Definition idx (z_136 : list R) : option nat :=
  Np.argmin ((fun v : R => v ^ 2) <$> ((fun v : R => v - zf_192) <$> z_136)).

Definition focal_slice (Field : list (list (list C))) (z_136 : list R)
  : option (list (list C)) :=
  idx z_136 ≫= (fun i : nat => Np.slice_last Field i).

End Values.

End Script.

(** ** Auxiliary definitions for the statements *)

(** The first index that attains the minimum of a list. *)
Definition first_min (l : list R) (j : nat) : Prop :=
  exists v, l !! j = Some v /\
    (forall i u, l !! i = Some u -> v <= u) /\
    (forall i u, (i < j)%nat -> l !! i = Some u -> v < u).

(** The array [np.exp(-1j * inputPhase)] of line 91 in closed form, entry
    by entry (see [inputBeam_91_eq]). *)
Definition phase_array (um fs zR : R) : list (list C) :=
  (fun yi : R =>
     (fun xj : R =>
        Script.phase_factor
          (Script.k um fs zR * (xj ^ 2 + yi ^ 2) / (2.0 * Script.Rz zR)
           - Script.guoy um fs zR)) <$> Script.x um) <$> Script.y um.

(** The loop body with the two masked assignments of lines 185 and 186
    exchanged: the other order of the two assignments. *)
Definition thresh_body_swapped (Field : list (list (list C))) (zi : nat)
  : option (list R) :=
  Np.column3 Field Script.mid zi ≫= (fun f : list C =>
  let f := (fun c : C => Cmod c ^ 2) <$> f in
  Np.max f ≫= (fun top : R =>
  let f := Np.assign_where (fun v => Script.gtb v (top * Script.e_m2)) 1.0 f in
  let f := Np.assign_where (fun v => Script.leb v (top * Script.e_m2)) 0.0 f in
  Some f)).

(** A field of shape (2, 257, 1) whose column at [mid] holds the
    amplitudes 4 and 1. *)
Definition Field_4_1 : list (list (list C)) :=
  [replicate 257 [RtoC 4]; replicate 257 [RtoC 1]].

(** Decimal literals such as [0.800] are quotients of integers. *)
Ltac unlit :=
  unfold Rdefinitions.Q2R in *; cbn [QArith_base.Qnum QArith_base.Qden] in *.

(** ** The run of the script: heap, trace and exceptions

    The heap holds the arrays that are passed to or come from the library
    and the arrays the script assigns to in place; the other arrays of the
    script are never modified after their construction and stay values.
    An array enters the heap when it is first passed to the library.  The
    trace records the calls into other modules and the exceptions.  The
    scalars of the script are Python floats: a division by zero raises;
    no other arithmetic on floats does in this model. *)

Module Py.

Definition loc : Type := nat.

(** The objects of the heap: arrays by dimension and type, and the
    objects of the library that the script only passes on. *)
Inductive ndarray : Type :=
| Arr1R (a : list R)
| Arr1C (a : list C)
| Arr2R (a : list (list R))
| Arr2C (a : list (list C))
| Arr3R (a : list (list (list R)))
| Arr3C (a : list (list (list C)))
| Opaque (tag : nat).

Inductive exn : Type :=
| IndexError
| ValueError
| TypeError
| ZeroDivisionError
| OtherError (code : nat).

(** The operations that appear in the trace. *)
Inductive op : Type :=
| OpImport (name : string)
| OpGetZr
| OpMakeInputBeam
| OpShadow
| OpPhase
| OpSetupPropagate
| OpPropagateInZ
| OpExplorer
| OpMidpointNormalize
| OpPlot (line : nat)     (* a call of matplotlib at the line *)
| OpLocal (line : nat).   (* numpy, indexing or arithmetic at the line *)

#[global] Instance op_eq_dec : EqDecision op.
Proof. solve_decision. Defined.

(** An operation that completed ([ev_exn = None]) or raised. *)
Record event : Type := Ev { ev_op : op; ev_exn : option exn }.

Record state : Type := State { heap : gmap loc ndarray; trace : list event }.

(** A statement: it ends with a value or with an exception that nothing
    catches, and leaves a state. *)
Definition M (A : Type) : Type := state -> (exn + A) * state.

Definition ret {A} (a : A) : M A := fun s => (inr a, s).

Definition bind {A B} (m : M A) (k : A -> M B) : M B :=
  fun s =>
    match m s with
    | (inr a, s') => k a s'
    | (inl e, s') => (inl e, s')
    end.

(** A function of another module: it reads and writes the heap. *)
Definition ext (A : Type) : Type := gmap loc ndarray -> (exn + A) * gmap loc ndarray.

Definition outcome {A} (r : exn + A) : option exn :=
  match r with
  | inl e => Some e
  | inr _ => None
  end.

Definition call {A} (o : op) (f : ext A) : M A :=
  fun s =>
    let rh := f (heap s) in
    (fst rh, State (snd rh) (trace s ++ [Ev o (outcome (fst rh))])).

Definition raise {A} (o : op) (e : exn) : M A :=
  fun s => (inl e, State (heap s) (trace s ++ [Ev o (Some e)])).

(** An operation of the given line that raises [e] when it has no
    result. *)
Definition lift {A} (line : nat) (e : exn) (v : option A) : M A :=
  match v with
  | Some a => ret a
  | None => raise (OpLocal line) e
  end.

(** The division of Python floats by [d] at the given line. *)
Definition divide_by {A} (line : nat) (d : R) (a : A) : M A :=
  lift line ZeroDivisionError (if Req_dec_T d 0 then None else Some a).

(** A new array. *)
Definition alloc (a : ndarray) : M loc :=
  fun s =>
    let l := fresh (dom (heap s)) in
    (inr l, State (<[l := a]> (heap s)) (trace s)).

(** The content of an array, read as the type the operation needs. *)
Definition load {A} (line : nat) (cast : ndarray -> option A) (l : loc) : M A :=
  fun s => lift line TypeError (heap s !! l ≫= cast) s.

(** An assignment in place. *)
Definition store (l : loc) (a : ndarray) : M unit :=
  fun s => (inr tt, State (<[l := a]> (heap s)) (trace s)).

Fixpoint for_each {A} (l : list A) (body : A -> M unit) : M unit :=
  match l with
  | [] => ret tt
  | a :: l' => bind (body a) (fun _ => for_each l' body)
  end.

Definition as1R (a : ndarray) : option (list R) :=
  match a with
  | Arr1R v => Some v
  | _ => None
  end.

Definition as1C (a : ndarray) : option (list C) :=
  match a with
  | Arr1C v => Some v
  | Arr1R v => Some (RtoC <$> v)
  | _ => None
  end.

Definition as2R (a : ndarray) : option (list (list R)) :=
  match a with
  | Arr2R v => Some v
  | _ => None
  end.

Definition as2C (a : ndarray) : option (list (list C)) :=
  match a with
  | Arr2C v => Some v
  | Arr2R v => Some (Np.map2d RtoC v)
  | _ => None
  end.

Definition as3C (a : ndarray) : option (list (list (list C))) :=
  match a with
  | Arr3C v => Some v
  | Arr3R v => Some (Np.map3d RtoC v)
  | _ => None
  end.

(** Any array, for an operation that only needs one. *)
Definition as_array (a : ndarray) : option ndarray :=
  match a with
  | Opaque _ => None
  | _ => Some a
  end.

(** An array argument of a library function: an array, or the view
    [a[:, j, :]] of one, which shares its memory. *)
Inductive aref : Type :=
| Whole (l : loc)
| MidView (l : loc) (j : nat).

(** What [setup_propagate] returns. *)
Record sp_out : Type := SpOut {
  sp_AS : loc; sp_xFreq : loc; sp_yFreq : loc; sp_G : loc; sp_mask : loc;
  sp_X : loc; sp_Y : loc; sp_z : loc; sp_eta : loc
}.

(** What the first phase leaves to the others. *)
Record setup_out : Type := SetupOut {
  so_zR : R; so_X : loc; so_Y : loc; so_inputBeam : loc; so_k0 : R
}.

Declare Scope py_scope.
Delimit Scope py_scope with py.
Notation "x <- m ;; k" := (bind m (fun x => k))
  (at level 100, m at next level, right associativity) : py_scope.
Notation "m ;; k" := (bind m (fun _ => k))
  (at level 100, right associativity) : py_scope.

Section Run.

(** The names the script takes from [beamPropagator_source]. *)
Variables um fs : R.
Variable get_zr : LP.t -> ext R.
Variable make_inputBeam : loc -> loc -> LP.t -> ext loc.
Variable shadow : aref -> ext loc.
Variable phase : aref -> ext loc.
Variable setup_propagate :
  loc -> loc -> loc -> loc -> loc -> R -> R -> nat -> ext sp_out.
Variable propagate_in_z :
  loc -> loc -> loc -> loc -> loc -> loc -> loc -> loc -> loc -> R -> ext loc.
Variable explorer : loc -> loc -> loc -> ext loc.
Variable MidpointNormalize : R -> R -> R -> ext loc.

(** Whether an [import] fails, and whether the matplotlib call of a line
    fails on the heap it sees; matplotlib does not write the arrays. *)
Variable import_fails : string -> option exn.
Variable plot_fails : nat -> gmap loc ndarray -> option exn.

Local Open Scope py_scope.

Definition import (name : string) : M unit :=
  call (OpImport name)
    (fun h => (match import_fails name with Some e => inl e | None => inr tt end, h)).

Definition plot (line : nat) : M unit :=
  call (OpPlot line)
    (fun h => (match plot_fails line h with Some e => inl e | None => inr tt end, h)).

Definition plots (lines : list nat) : M unit := for_each lines plot.

(** [[a.min(), a.max()]] of a one-dimensional array. *)
Definition min_max (a : list R) : option (R * R) :=
  Np.min a ≫= (fun lo : R => Np.max a ≫= (fun hi : R => Some (lo, hi))).

(** Lines 19 to 24. *)
Definition imports : M unit :=
  import "numpy";;
  import "matplotlib.pyplot";;
  import "sys";;
  import "beamPropagator_source".

(** Phase (a), lines 19 to 134: parameters, grid, input beam and the
    plots that check it. *)
Definition setup : M setup_out :=
  imports;;
  zR <- call OpGetZr (get_zr (Script.laserParameters_30 um fs));;
  Rz <- divide_by 51 (Script.z0 zR) (Script.Rz zR);;
  w_z0 <- divide_by 54 zR (Script.w_z0 um fs zR);;
  X <- alloc (Arr2R (Script.X um));;
  Y <- alloc (Arr2R (Script.Y um));;
  inputBeam <- call OpMakeInputBeam
                 (make_inputBeam X Y (Script.laserParameters um fs zR));;
  zR_83 <- divide_by 83 (Script.lambda0 um fs zR) (Script.zR_83 um fs zR);;
  k <- divide_by 86 (Script.lambda0 um fs zR) (Script.k um fs zR);;
  X_87 <- load 87 as2R X;;
  Y_87 <- load 87 as2R Y;;
  _ <- lift 87 ValueError (Script.R_sq X_87 Y_87);;
  guoy <- divide_by 88 zR_83 (Script.guoy um fs zR);;
  amp <- load 91 as2C inputBeam;;
  field <- lift 91 ValueError (Script.inputBeam_91 um fs zR amp X_87 Y_87);;
  inputBeam <- alloc (Arr2C field);;
  plots [95; 96]%nat;;
  _ <- lift 98 ValueError (min_max (Script.x um));;
  _ <- lift 98 ValueError (min_max (Script.y um));;
  plot 100;;
  t <- call OpShadow (shadow (Whole inputBeam));;
  _ <- load 101 as_array t;;
  plots [102; 108; 111]%nat;;
  p <- call OpPhase (phase (Whole inputBeam));;
  plot 112;;
  k0 <- divide_by 134 (LP.lambda0 (Script.laserParameters um fs zR))
          (Script.k0 um fs zR);;
  ret (SetupOut zR X Y inputBeam k0).

(** Phase (b), lines 136 and 143. *)
Definition propagate (s : setup_out) : M (sp_out * loc) :=
  z <- alloc (Arr1R (Script.z (so_zR s)));;
  eta <- alloc (Arr3R (Script.eta (so_zR s)));;
  r <- call OpSetupPropagate
         (setup_propagate (so_inputBeam s) (so_X s) (so_Y s) z eta
            (so_k0 s) Script.eta0 Script.absorbingBoundaries);;
  Field <- call OpPropagateInZ
             (propagate_in_z (sp_AS r) (sp_xFreq r) (sp_yFreq r) (sp_G r)
                (sp_mask r) (sp_X r) (sp_Y r) (sp_z r) (sp_eta r) (so_k0 s));;
  ret (r, Field).

(** The view [Field[:, mid, :]]: it raises when [Field] has no such
    slice, and copies nothing. *)
Definition mid_view (line : nat) (Field : loc) : M aref :=
  F <- load line as3C Field;;
  _ <- lift line IndexError (Np.slice_mid F Script.mid);;
  ret (MidView Field Script.mid).

(** The plot extent [[z.min(), z.max(), y.min(), y.max()]]. *)
Definition extent_zy (line : nat) (z : loc) : M unit :=
  zv <- load line as1R z;;
  _ <- lift line ValueError (min_max zv);;
  _ <- lift line ValueError (min_max (Script.y um));;
  ret tt.

(** One turn of the loop of lines 181 to 187. *)
Definition thresh_iter (Field thresh : loc) (zi : nat) : M unit :=
  F <- load 182 as3C Field;;
  col <- lift 182 IndexError (Np.column3 F Script.mid zi);;
  f <- alloc (Arr1C col);;
  fv <- load 183 as1C f;;
  f <- alloc (Arr1R ((fun c : C => Cmod c ^ 2) <$> fv));;
  fv <- load 184 as1R f;;
  top <- lift 184 ValueError (Np.max fv);;
  fv <- load 185 as1R f;;
  store f (Arr1R (Np.assign_where (fun v => Script.leb v (top * Script.e_m2)) 0.0 fv));;
  fv <- load 186 as1R f;;
  store f (Arr1R (Np.assign_where (fun v => Script.gtb v (top * Script.e_m2)) 1.0 fv));;
  T <- load 187 as2R thresh;;
  fv <- load 187 as1R f;;
  T' <- lift 187 ValueError (Np.set_column T zi fv);;
  store thresh (Arr2R T').

(** [np.real(np.exp(+1j * k0 * Zd*1e-3) * Field[:, mid, :])] at one entry. *)
Definition E_full_entry (k0 zd : R) (c : C) : R :=
  Cre (Cmult (Cexp (Cmult Ci (RtoC (k0 * (zd * 1e-3))))) c).

(** Phase (c), lines 149 to 250. *)
Definition analysis (s : setup_out) (r : sp_out) (Field : loc) : M unit :=
  ne <- alloc (Arr3R Script.ne);;
  buttons <- call OpExplorer (explorer Field ne (sp_z r));;
  plots [155; 157]%nat;;
  extent_zy 159 (sp_z r);;
  v <- mid_view 160 Field;;
  sh <- call OpShadow (shadow v);;
  extent_zy 160 (sp_z r);;
  plot 160;;
  v <- mid_view 162 Field;;
  im <- call OpPhase (phase v);;
  extent_zy 163 (sp_z r);;
  plot 164;;   (* the colour map [matplotlib.cm.RdBu_r] *)
  norm <- call OpMidpointNormalize (MidpointNormalize 0.0 (- PI / 2.0) (PI / 2.0));;
  plot 163;;
  zv <- load 169 as1R (sp_z r);;
  let Zd := fst (Np.meshgrid ((fun v : R => v * 1e3) <$> zv)
                   ((fun v : R => v * 1e3) <$> Script.y um)) in
  plots [171; 173; 174; 175; 176]%nat;;
  F <- load 180 as3C Field;;
  sl <- lift 180 IndexError (Np.slice_mid F Script.mid);;
  thresh <- alloc (Arr2R (Np.zeros_like2 sl));;
  F <- load 181 as3C Field;;
  for_each (seq 0 (Script.shape_last F)) (thresh_iter Field thresh);;
  zR_191 <- divide_by 191 (Script.lambda0 um fs (so_zR s))
              (Script.zR_191 um fs (so_zR s));;
  zv <- load 193 as1R (sp_z r);;
  let w := Script.w um fs (so_zR s) zv in
  extent_zy 195 (sp_z r);;
  plots [195; 196; 197; 199; 200; 201; 202; 209]%nat;;
  F <- load 211 as3C Field;;
  sl <- lift 211 IndexError (Np.slice_mid F Script.mid);;
  E_full <- lift 211 ValueError
              (Np.binop2 (E_full_entry (so_k0 s)) Zd sl);;
  extent_zy 212 (sp_z r);;
  plots [212; 214; 215; 216]%nat;;
  zv <- load 224 as1R (sp_z r);;
  idx <- lift 224 ValueError (Script.idx um fs (so_zR s) zv);;
  F <- load 225 as3C Field;;
  fsl <- lift 225 IndexError (Np.slice_last F idx);;
  focal_slice <- alloc (Arr2C fsl);;
  I <- call OpShadow (shadow (Whole focal_slice));;
  Iv <- load 229 as2R I;;
  _ <- lift 229 ValueError (Np.max (concat Iv));;
  _ <- lift 231 ValueError (min_max (Script.x um));;
  _ <- lift 231 ValueError (min_max (Script.y um));;
  plots [233; 234; 235; 237]%nat;;
  _ <- load 238 as2R (sp_X r);;
  _ <- load 238 as2R (sp_Y r);;
  plots [238; 239; 241; 242; 249; 250]%nat.

(** The script: the three phases in sequence. *)
Definition script : M unit :=
  s <- setup;;
  rF <- propagate s;;
  analysis s (fst rF) (snd rF).

End Run.

(** *** Properties of statements *)

(** The events a statement adds to the trace. *)
Definition events_of {A} (m : M A) (s : state) : list event :=
  drop (length (trace s)) (trace (snd (m s))).






(** A statement that leaves the array at [l] as it is, whatever its
    outcome. *)
Definition leaves {A} (l : loc) (m : M A) : Prop :=
  forall s v, heap s !! l = Some v -> heap (snd (m s)) !! l = Some v.


End Py.

Import Py.

(** ** The values of the diagnostic plots *)

Module Diag.

(** Lines 98 and 231:
    [np.array([x.min(), x.max(), y.min(), y.max()])*1e6]. *)
Definition extent (x y : list R) : option (list R) :=
  min_max x ≫= (fun mx : R * R =>
  min_max y ≫= (fun my : R * R =>
  Some ((fun v : R => v * 1e6) <$> [fst mx; snd mx; fst my; snd my]))).

(** Line 159: [(z.max() - z.min()) / (y.max() - y.min())]. *)
Definition asp (z_136 y : list R) : option R :=
  min_max z_136 ≫= (fun mz : R * R =>
  min_max y ≫= (fun my : R * R =>
  Some ((snd mz - fst mz) / (snd my - fst my)))).

(** Line 169: [Zd, Yd = np.meshgrid(z*1e3, y*1e3)]. *)
Definition Zd (z_136 y : list R) : list (list R) :=
  fst (Np.meshgrid ((fun v : R => v * 1e3) <$> z_136) ((fun v : R => v * 1e3) <$> y)).

Definition Yd (z_136 y : list R) : list (list R) :=
  snd (Np.meshgrid ((fun v : R => v * 1e3) <$> z_136) ((fun v : R => v * 1e3) <$> y)).

(** Line 211, on the slice [Field[:, mid, :]]. *)
Definition E_full (k0 : R) (z_136 y : list R) (Field : list (list (list C)))
  : option (list (list R)) :=
  Np.slice_mid Field Script.mid ≫= (fun sl : list (list C) =>
  Np.binop2 (E_full_entry k0) (Zd z_136 y) sl).

End Diag.

(** A field that differs from [Field_4_1] outside the column at [mid]. *)
Definition Field_4_1_other : list (list (list C)) :=
  [replicate 256 [RtoC 9] ++ [[RtoC 4]]; replicate 256 [RtoC 7] ++ [[RtoC 1]]].

(** ** The sequence of calls of a run *)

(** A statement that follows the sequence [ops] of calls: a run that
    completes made exactly these calls, in this order; a run that raised
    made a first part of them, the last one being the call that raised,
    or a first part of them followed by the operation of the script
    itself that raised. *)
Definition follows {A} (ops : list op) (m : M A) : Prop :=
  forall s,
    trace (snd (m s)) = trace s ++ events_of m s /\
    match fst (m s) with
    | inr _ => ev_op <$> events_of m s = ops
    | inl _ =>
        exists pre,
          pre `prefix_of` ops /\
          (ev_op <$> events_of m s = pre \/
           exists line, ev_op <$> events_of m s = pre ++ [OpLocal line])
    end.

(** The calls of a run of the script that completes. *)
Definition completed_run : list op :=
  [OpImport "numpy"; OpImport "matplotlib.pyplot"; OpImport "sys";
   OpImport "beamPropagator_source";
   OpGetZr; OpMakeInputBeam; OpPlot 95; OpPlot 96; OpPlot 100; OpShadow;
   OpPlot 102; OpPlot 108; OpPlot 111; OpPhase; OpPlot 112;
   OpSetupPropagate; OpPropagateInZ;
   OpExplorer; OpPlot 155; OpPlot 157; OpShadow; OpPlot 160; OpPhase;
   OpPlot 164; OpMidpointNormalize; OpPlot 163;
   OpPlot 171; OpPlot 173; OpPlot 174; OpPlot 175; OpPlot 176;
   OpPlot 195; OpPlot 196; OpPlot 197; OpPlot 199; OpPlot 200; OpPlot 201;
   OpPlot 202; OpPlot 209;
   OpPlot 212; OpPlot 214; OpPlot 215; OpPlot 216;
   OpShadow;
   OpPlot 233; OpPlot 234; OpPlot 235; OpPlot 237;
   OpPlot 238; OpPlot 239; OpPlot 241; OpPlot 242; OpPlot 249; OpPlot 250].

(** The calls into [beamPropagator_source]. *)
Definition is_library (o : op) : bool :=
  match o with
  | OpGetZr | OpMakeInputBeam | OpShadow | OpPhase | OpSetupPropagate
  | OpPropagateInZ | OpExplorer | OpMidpointNormalize => true
  | _ => false
  end.

(** * Properties *)

Lemma length_linspace a b n : length (Np.linspace a b n) = n.
Proof.
  unfold Np.linspace.
  repeat case_decide; repeat destruct (Req_dec_T _ _);
    rewrite ?length_insert, !length_fmap, length_seq; reflexivity.
Qed.

Lemma lookup_linspace a b n i :
  (1 < n)%nat -> (i < n)%nat ->
  Np.linspace a b n !! i = Some (a + INR i * ((b - a) / INR (n - 1))).
Proof.
  intros Hn Hi. unfold Np.linspace.
  assert (Hd : INR (n - 1) <> 0) by (apply not_0_INR; lia).
  rewrite (decide_True (P := (1 < n)%nat)) by lia.
  rewrite (decide_True (P := (0 < n - 1)%nat)) by lia.
  destruct (decide (i = (n - 1)%nat)) as [->|Hne].
  - rewrite list_lookup_insert_eq.
    + f_equal. field. exact Hd.
    + destruct (Req_dec_T _ _); rewrite !length_fmap, length_seq; lia.
  - rewrite list_lookup_insert_ne by lia.
    destruct (Req_dec_T _ _) as [E|E];
      rewrite !list_lookup_fmap, lookup_seq_lt by lia; simpl; f_equal.
    + rewrite E. apply Rmult_integral in E as [E|E].
      * rewrite E. lra.
      * exfalso. apply Rinv_neq_0_compat in Hd. contradiction.
    + lra.
Qed.

Lemma INR_lit (n : nat) (zn : Z) : Z.of_nat n = zn -> INR n = IZR zn.
Proof. intros <-. apply INR_IZR_INZ. Qed.

Lemma INR_512 : INR 512 = 512.
Proof. apply INR_lit. reflexivity. Qed.

Lemma INR_511 : INR 511 = 511.
Proof. apply INR_lit. reflexivity. Qed.

Lemma lookup_x um i :
  (i < 512)%nat ->
  Script.x um !! i = Some (- (256 * um) + INR i * (512 * um / 511)).
Proof.
  intros Hi. unfold Script.x, Script.n_pts.
  rewrite lookup_linspace by lia.
  change (512 - 1)%nat with 511%nat. rewrite INR_512, INR_511.
  unfold Script.res. f_equal. field.
Qed.




Lemma argmin_from_first_min (f pre : list R) (b n : nat) (vb : R) :
  n = length pre ->
  pre !! b = Some vb ->
  (forall i u, pre !! i = Some u -> vb <= u) ->
  (forall i u, (i < b)%nat -> pre !! i = Some u -> vb < u) ->
  first_min (pre ++ f) (Np.argmin_from b vb n f).
Proof.
  revert pre b n vb.
  induction f as [|v f IH]; intros pre b n vb Hn Hb Hmin Hfst; simpl.
  - rewrite app_nil_r. exists vb. auto.
  - replace (pre ++ v :: f) with ((pre ++ [v]) ++ f)
      by (rewrite <- app_assoc; reflexivity).
    assert (Hlen : S n = length (pre ++ [v])) by (rewrite length_app; simpl; lia).
    destruct (Rlt_dec v vb) as [Hlt|Hge]; apply IH; try exact Hlen.
    + rewrite lookup_app_r by lia. rewrite Hn, Nat.sub_diag. reflexivity.
    + intros i u Hi. destruct (decide (i < length pre)%nat).
      * rewrite lookup_app_l in Hi by lia. specialize (Hmin _ _ Hi). lra.
      * rewrite lookup_app_r in Hi by lia.
        apply list_lookup_singleton_Some in Hi as [_ <-]. lra.
    + intros i u Hi Hu. rewrite lookup_app_l in Hu by lia.
      specialize (Hmin _ _ Hu). lra.
    + rewrite lookup_app_l; [exact Hb|]. eapply lookup_lt_Some; eauto.
    + intros i u Hi. destruct (decide (i < length pre)%nat).
      * rewrite lookup_app_l in Hi by lia. eauto.
      * rewrite lookup_app_r in Hi by lia.
        apply list_lookup_singleton_Some in Hi as [_ <-]. lra.
    + intros i u Hi Hu. apply (Hfst i u Hi).
      rewrite lookup_app_l in Hu; [exact Hu|].
      apply lookup_lt_Some in Hb. lia.
Qed.

Lemma argmin_first_min (l : list R) (j : nat) :
  Np.argmin l = Some j -> first_min l j.
Proof.
  destruct l as [|v l]; simpl; [discriminate|].
  intros [= <-].
  apply (argmin_from_first_min l [v] 0 1 v); try reflexivity.
  - intros [|i] u Hi; simpl in Hi; [injection Hi as <-; lra | discriminate].
  - intros i u Hi; lia.
Qed.

Lemma argmin_is_Some (l : list R) : l <> [] -> is_Some (Np.argmin l).
Proof. destruct l; [congruence | intros _; simpl; eauto]. Qed.


Lemma lookup_z zR i :
  (i < 512)%nat -> Script.z zR !! i = Some (INR i * (6 * zR / 511)).
Proof.
  intros Hi. unfold Script.z, Script.nz, Script.zMax.
  rewrite lookup_linspace by lia.
  change (512 - 1)%nat with 511%nat. rewrite INR_511. f_equal. unlit. field.
Qed.

Lemma length_z zR : length (Script.z zR) = 512%nat.
Proof. apply length_linspace. Qed.










Section ZipStrict.
Context {A B D : Type} (f : A -> B -> option D).

Lemma zip_strict_length l k r :
  Np.zip_strict f l k = Some r -> length l = length r /\ length k = length r.
Proof.
  revert k r. induction l as [|a l IH]; intros [|b k] r; simpl; try discriminate.
  - intros [= <-]. auto.
  - destruct (f a b); [|discriminate].
    destruct (Np.zip_strict f l k) as [r'|] eqn:E; [|discriminate].
    intros [= <-]. destruct (IH _ _ E). simpl. auto.
Qed.

Lemma zip_strict_lookup l k r i d :
  Np.zip_strict f l k = Some r -> r !! i = Some d ->
  exists a b, l !! i = Some a /\ k !! i = Some b /\ f a b = Some d.
Proof.
  revert k r i. induction l as [|a l IH]; intros [|b k] r i; simpl; try discriminate.
  - intros [= <-]. rewrite lookup_nil. discriminate.
  - destruct (f a b) as [d0|] eqn:Ef; [|discriminate].
    destruct (Np.zip_strict f l k) as [r'|] eqn:E; [|discriminate].
    intros [= <-]. destruct i as [|i]; simpl.
    + intros [= <-]. eauto.
    + intros Hd. eapply IH; eauto.
Qed.

Lemma zip_strict_is_Some l k :
  length l = length k ->
  (forall i a b, l !! i = Some a -> k !! i = Some b -> is_Some (f a b)) ->
  is_Some (Np.zip_strict f l k).
Proof.
  revert k. induction l as [|a l IH]; intros [|b k]; simpl; try discriminate; eauto.
  intros Hlen Hf. destruct (Hf 0%nat a b) as [d Hd]; try reflexivity.
  rewrite Hd. destruct (IH k) as [r Hr].
  - lia.
  - intros i a' b' Ha Hb. apply (Hf (S i)); assumption.
  - rewrite Hr. eauto.
Qed.
End ZipStrict.

Lemma binop1_lookup {A B D} (f : A -> B -> D) l k r i d :
  Np.binop1 f l k = Some r -> r !! i = Some d ->
  exists a b, l !! i = Some a /\ k !! i = Some b /\ d = f a b.
Proof.
  intros Hr Hd. destruct (zip_strict_lookup _ _ _ _ _ _ Hr Hd) as (a & b & Ha & Hb & E).
  exists a, b. split_and!; congruence.
Qed.

Lemma binop2_lookup {A B D} (f : A -> B -> D) l k r i j d :
  Np.binop2 f l k = Some r -> Np.get2 r i j = Some d ->
  exists a b, Np.get2 l i j = Some a /\ Np.get2 k i j = Some b /\ d = f a b.
Proof.
  unfold Np.get2. intros Hr Hd.
  destruct (r !! i) as [row|] eqn:Hrow; [|discriminate]. simpl in Hd.
  destruct (zip_strict_lookup _ _ _ _ _ _ Hr Hrow) as (ra & rb & Ha & Hb & E).
  destruct (binop1_lookup _ _ _ _ _ _ E Hd) as (a & b & Ha' & Hb' & ->).
  exists a, b. rewrite Ha, Hb. simpl. auto.
Qed.

Lemma binop2_is_Some {A B D} (f : A -> B -> D) l k n0 n1 :
  Np.shape2 l n0 n1 -> Np.shape2 k n0 n1 -> is_Some (Np.binop2 f l k).
Proof.
  intros [Hl Hl'] [Hk Hk']. apply zip_strict_is_Some; [congruence|].
  intros i a b Ha Hb. apply zip_strict_is_Some; [|eauto].
  rewrite Forall_lookup in Hl'. rewrite Forall_lookup in Hk'.
  rewrite (Hl' _ _ Ha), (Hk' _ _ Hb). reflexivity.
Qed.

Lemma binop2_shape {A B D} (f : A -> B -> D) l k r n0 n1 :
  Np.shape2 l n0 n1 -> Np.binop2 f l k = Some r -> Np.shape2 r n0 n1.
Proof.
  intros [Hl Hl'] Hr. split.
  - destruct (zip_strict_length _ _ _ _ Hr). congruence.
  - apply Forall_lookup. intros i row Hrow.
    destruct (zip_strict_lookup _ _ _ _ _ _ Hr Hrow) as (ra & rb & Ha & Hb & E).
    destruct (zip_strict_length _ _ _ _ E) as [<- _].
    rewrite Forall_lookup in Hl'. eauto.
Qed.

(** The closed form of [R_sq]. *)
Lemma binop1_R_sq (x : list R) (yi : R) :
  Np.binop1 Rplus ((fun v : R => v ^ 2) <$> x)
    ((fun v : R => v ^ 2) <$> ((fun _ : R => yi) <$> x))
  = Some ((fun xj : R => xj ^ 2 + yi ^ 2) <$> x).
Proof.
  unfold Np.binop1. induction x as [|xj x IH]; [reflexivity|].
  cbn [fmap list_fmap Np.zip_strict] in *. rewrite IH. reflexivity.
Qed.

Lemma binop2_R_sq (x y : list R) :
  Np.binop2 Rplus (Np.map2d (fun v : R => v ^ 2) (fst (Np.meshgrid x y)))
    (Np.map2d (fun v : R => v ^ 2) (snd (Np.meshgrid x y)))
  = Some ((fun yi : R => (fun xj : R => xj ^ 2 + yi ^ 2) <$> x) <$> y).
Proof.
  unfold Np.binop2, Np.map2d, Np.meshgrid. cbn [fst snd].
  induction y as [|yi y IH]; [reflexivity|].
  cbn [fmap list_fmap Np.zip_strict] in *.
  rewrite (binop1_R_sq x yi). rewrite IH. reflexivity.
Qed.






Lemma length_x um : length (Script.x um) = 512%nat.
Proof. apply length_linspace. Qed.

Lemma length_y um : length (Script.y um) = 512%nat.
Proof. apply length_linspace. Qed.

Lemma get2_fmap2 {A B D} (g : A -> B -> D) (x : list A) (y : list B) i j :
  Np.get2 ((fun yi : B => (fun xj : A => g xj yi) <$> x) <$> y) i j
  = y !! i ≫= (fun yi : B => x !! j ≫= (fun xj : A => Some (g xj yi))).
Proof.
  unfold Np.get2. rewrite list_lookup_fmap.
  destruct (y !! i) as [yi|]; [|reflexivity]. simpl.
  rewrite list_lookup_fmap. destruct (x !! j); reflexivity.
Qed.

Lemma shape2_fmap2 {A B D} (g : A -> B -> D) (x : list A) (y : list B) :
  Np.shape2 ((fun yi : B => (fun xj : A => g xj yi) <$> x) <$> y) (length y) (length x).
Proof.
  split; [apply length_fmap|]. apply Forall_fmap, Forall_forall.
  intros yi _. simpl. apply length_fmap.
Qed.

Lemma get2_X um i j xj :
  (i < 512)%nat -> Script.x um !! j = Some xj -> Np.get2 (Script.X um) i j = Some xj.
Proof.
  intros Hi Hj. unfold Script.X, Np.meshgrid. cbn [fst].
  unfold Np.get2. rewrite list_lookup_fmap.
  destruct (lookup_lt_is_Some_2 (Script.y um) i) as [yi ->]; [rewrite length_y; lia|].
  simpl. exact Hj.
Qed.

Lemma get2_Y um i j yi :
  (j < 512)%nat -> Script.y um !! i = Some yi -> Np.get2 (Script.Y um) i j = Some yi.
Proof.
  intros Hj Hi. unfold Script.Y, Np.meshgrid. cbn [snd].
  rewrite (get2_fmap2 (fun (_ : R) (yi : R) => yi)). rewrite Hi. simpl.
  destruct (lookup_lt_is_Some_2 (Script.x um) j) as [xj ->]; [rewrite length_x; lia|].
  reflexivity.
Qed.

Lemma inputBeam_91_eq um fs zR inputBeam :
  Script.inputBeam_91 um fs zR inputBeam (Script.X um) (Script.Y um)
  = Np.binop2 Cmult inputBeam (phase_array um fs zR).
Proof.
  unfold Script.inputBeam_91, Script.inputPhase, Script.R_sq, Script.X, Script.Y.
  rewrite binop2_R_sq. cbn [fmap option_fmap option_map mbind option_bind].
  f_equal. unfold phase_array, Np.map2d.
  rewrite <- !list_fmap_compose. apply list_fmap_ext. intros _ yi _. simpl.
  rewrite <- !list_fmap_compose. reflexivity.
Qed.

Lemma inputBeam_91_lookup um fs zR inputBeam F i j c :
  Script.inputBeam_91 um fs zR inputBeam (Script.X um) (Script.Y um) = Some F ->
  Np.get2 F i j = Some c ->
  exists a xj yi,
    Np.get2 inputBeam i j = Some a /\
    Script.x um !! j = Some xj /\ Script.y um !! i = Some yi /\
    c = Cmult a (Script.phase_factor
                   (Script.k um fs zR * (xj ^ 2 + yi ^ 2) / (2.0 * Script.Rz zR)
                    - Script.guoy um fs zR)).
Proof.
  rewrite inputBeam_91_eq. intros HF Hc.
  destruct (binop2_lookup _ _ _ _ _ _ _ HF Hc) as (a & b & Ha & Hb & ->).
  unfold phase_array in Hb. rewrite get2_fmap2 in Hb.
  destruct (Script.y um !! i) as [yi|]; [|discriminate]. simpl in Hb.
  destruct (Script.x um !! j) as [xj|]; [|discriminate]. simpl in Hb.
  apply (inj Some) in Hb. subst b. exists a, xj, yi. auto.
Qed.

Lemma Rz_eq zR : zR <> 0 -> Script.Rz zR = - (10 / 3) * zR.
Proof. intros H. unfold Script.Rz, Script.z0, Script.zf. unlit. field. lra. Qed.

Lemma k_eq um fs zR : Script.k um fs zR = 2 * PI / (0.800 * um).
Proof. unfold Script.k, Script.lambda0. simpl. unlit. reflexivity || (f_equal; lra). Qed.

(** C1.  With [z0 = -3*zR], [zR > 0], the radius of curvature
    [Rz = z0*(1 + (zR/z0)^2)] is negative, so the coefficient [k/(2*Rz)] of
    the quadratic phase is negative (a converging beam); and for an
    amplitude array of the grid's shape the field of line 91 exists, has
    the same shape, and at every pixel equals the amplitude times
    [exp(-1j*(k*(X^2+Y^2)/(2*Rz) - guoy))], with [k = 2*pi/lambda0] and
    [guoy = arctan(z0/zR)]. *)
Theorem C1_initial_field (um fs zR : R) (inputBeam : list (list C)) :
  0 < um -> 0 < zR ->
  Np.shape2 inputBeam Script.n_pts Script.n_pts ->
  Script.z0 zR = - 3 * zR /\
  Script.Rz zR = Script.z0 zR * (1 + (zR / Script.z0 zR) ^ 2) /\
  Script.Rz zR < 0 /\
  Script.k um fs zR = 2 * PI / LP.lambda0 (Script.laserParameters um fs zR) /\
  Script.guoy um fs zR = atan (Script.z0 zR / Script.zR_83 um fs zR) /\
  Script.k um fs zR / (2 * Script.Rz zR) < 0 /\
  exists F,
    Script.inputBeam_91 um fs zR inputBeam (Script.X um) (Script.Y um) = Some F /\
    Np.shape2 F Script.n_pts Script.n_pts /\
    forall i j, (i < Script.n_pts)%nat -> (j < Script.n_pts)%nat ->
      exists a Xij Yij,
        Np.get2 inputBeam i j = Some a /\
        Np.get2 (Script.X um) i j = Some Xij /\
        Np.get2 (Script.Y um) i j = Some Yij /\
        Np.get2 F i j
        = Some (Cmult a
                  (Cexp (Cmult (Copp Ci)
                     (RtoC (Script.k um fs zR * (Xij ^ 2 + Yij ^ 2)
                              / (2.0 * Script.Rz zR)
                            - Script.guoy um fs zR))))).
Proof.
  intros Hum HzR Hshape.
  assert (HRz : Script.Rz zR = - (10 / 3) * zR) by (apply Rz_eq; lra).
  assert (Hk : 0 < Script.k um fs zR).
  { rewrite k_eq. apply Rdiv_lt_0_compat; [|unlit; lra]. apply Rgt_2PI_0. }
  split_and!.
  - unfold Script.z0, Script.zf. unlit. lra.
  - unfold Script.Rz. unlit. f_equal. lra.
  - lra.
  - unfold Script.k. unlit. f_equal. lra.
  - reflexivity.
  - unfold Rdiv. apply Rmult_pos_neg; [exact Hk|].
    apply Rinv_lt_0_compat. lra.
  - destruct (binop2_is_Some Cmult inputBeam (phase_array um fs zR) 512 512)
      as [F HF]; [exact Hshape| |].
    { unfold phase_array.
      rewrite <- (length_x um) at 2. rewrite <- (length_y um) at 1.
      apply (shape2_fmap2 (fun xj yi : R => Script.phase_factor _)). }
    rewrite <- inputBeam_91_eq in HF. exists F. split_and!.
    + exact HF.
    + rewrite inputBeam_91_eq in HF. eapply binop2_shape; eauto.
    + intros i j Hi Hj. unfold Script.n_pts in Hi, Hj.
      assert (HF' := HF). rewrite inputBeam_91_eq in HF'.
      destruct (binop2_shape _ _ _ _ _ _ Hshape HF') as [HlenF HrowF].
      destruct (lookup_lt_is_Some_2 F i) as [row Hrow]; [unfold Script.n_pts in *; lia|].
      rewrite Forall_lookup in HrowF. specialize (HrowF _ _ Hrow).
      destruct (lookup_lt_is_Some_2 row j) as [c Hc]; [unfold Script.n_pts in *; lia|].
      assert (Hget : Np.get2 F i j = Some c).
      { unfold Np.get2. rewrite Hrow. exact Hc. }
      destruct (inputBeam_91_lookup _ _ _ _ _ _ _ _ HF Hget)
        as (a & xj & yi & Ha & Hx & Hy & ->).
      exists a, xj, yi. split_and!.
      * exact Ha.
      * apply get2_X; assumption.
      * apply get2_Y; assumption.
      * rewrite Hget. reflexivity.
Qed.


Lemma w0_190_eq um fs : Script.w0_190 um fs = 30 * um.
Proof. unfold Script.w0_190, Script.w0. simpl. unlit. field. Qed.

Lemma zR_191_pos um fs zR : 0 < um -> 0 < Script.zR_191 um fs zR.
Proof.
  intros Hum. unfold Script.zR_191, Script.lambda0. simpl.
  rewrite w0_190_eq. apply Rdiv_lt_0_compat; [|unlit; lra].
  apply Rmult_lt_0_compat; [apply PI_RGT_0|nra].
Qed.

Lemma sqrt_one_plus_sq_ge (t : R) : 1 <= sqrt (1 + t ^ 2).
Proof. rewrite <- sqrt_1 at 1. apply sqrt_le_1_alt. nra. Qed.

Lemma sqrt_one_plus_sq_eq (t : R) : sqrt (1 + t ^ 2) = 1 <-> t = 0.
Proof.
  split.
  - intros E. assert (H : 1 + t ^ 2 = 1).
    { rewrite <- (sqrt_sqrt (1 + t ^ 2)) by nra. rewrite E. ring. }
    nra.
  - intros ->. replace (1 + 0 ^ 2) with 1 by ring. apply sqrt_1.
Qed.

Lemma sqrt_one_plus_sq_lt (s t : R) : s ^ 2 < t ^ 2 -> sqrt (1 + s ^ 2) < sqrt (1 + t ^ 2).
Proof. intros H. apply sqrt_lt_1_alt. nra. Qed.

Lemma lookup_w um fs zR (z_136 : list R) i :
  Script.w um fs zR z_136 !! i
  = (fun v : R => Script.w_of_zc um fs zR (v - Script.zf_192 um fs zR)) <$> z_136 !! i.
Proof.
  unfold Script.w, Script.zc. rewrite !list_lookup_fmap.
  destruct (z_136 !! i); reflexivity.
Qed.

(** C3.  The analytic waist of lines 190 to 194 is
    [w = w0*sqrt(1 + ((z - 3*zR)/zR)^2)] with [zR = pi*w0^2/lambda0]; at
    every grid point [w >= w0], with equality exactly at [z = 3*zR]; [w] is
    strictly decreasing for [z <= 3*zR] and strictly increasing for
    [z >= 3*zR]. *)
Theorem C3_analytic_waist (um fs zR : R) (z_136 : list R) :
  0 < um ->
  Script.zR_191 um fs zR = PI * Script.w0_190 um fs ^ 2 / Script.lambda0 um fs zR /\
  Script.zf_192 um fs zR = 3 * Script.zR_191 um fs zR /\
  (forall i v, z_136 !! i = Some v ->
     Script.w um fs zR z_136 !! i
     = Some (Script.w0_190 um fs
             * sqrt (1 + ((v - 3 * Script.zR_191 um fs zR)
                          / Script.zR_191 um fs zR) ^ 2))) /\
  (forall i v wv, z_136 !! i = Some v -> Script.w um fs zR z_136 !! i = Some wv ->
     Script.w0_190 um fs <= wv /\
     (wv = Script.w0_190 um fs <-> v = 3 * Script.zR_191 um fs zR)) /\
  (forall i j u v wu wv,
     z_136 !! i = Some u -> z_136 !! j = Some v ->
     Script.w um fs zR z_136 !! i = Some wu ->
     Script.w um fs zR z_136 !! j = Some wv ->
     (u < v -> v <= 3 * Script.zR_191 um fs zR -> wv < wu) /\
     (3 * Script.zR_191 um fs zR <= u -> u < v -> wu < wv)).
Proof.
  intros Hum.
  assert (HzR := zR_191_pos um fs zR Hum).
  assert (Hw0 : 0 < Script.w0_190 um fs) by (rewrite w0_190_eq; lra).
  assert (Hzf : Script.zf_192 um fs zR = 3 * Script.zR_191 um fs zR).
  { unfold Script.zf_192. unlit. lra. }
  assert (Hw : forall i v, z_136 !! i = Some v ->
     Script.w um fs zR z_136 !! i
     = Some (Script.w0_190 um fs
             * sqrt (1 + ((v - 3 * Script.zR_191 um fs zR)
                          / Script.zR_191 um fs zR) ^ 2))).
  { intros i v Hv. rewrite lookup_w, Hv. simpl. unfold Script.w_of_zc.
    rewrite Hzf. do 3 f_equal. unlit. lra. }
  set (zr := Script.zR_191 um fs zR) in *.
  set (w0 := Script.w0_190 um fs) in *.
  assert (Hsq : forall u v : R,
     ((u - 3 * zr) / zr) ^ 2 < ((v - 3 * zr) / zr) ^ 2 <->
     (u - 3 * zr) ^ 2 < (v - 3 * zr) ^ 2).
  { intros u v.
    replace (((u - 3 * zr) / zr) ^ 2) with ((u - 3 * zr) ^ 2 * (/ zr) ^ 2)
      by (field; lra).
    replace (((v - 3 * zr) / zr) ^ 2) with ((v - 3 * zr) ^ 2 * (/ zr) ^ 2)
      by (field; lra).
    assert (0 < (/ zr) ^ 2).
    { assert (0 < / zr) by (apply Rinv_0_lt_compat; lra). nra. }
    split; intros; nra. }
  split_and!.
  - reflexivity.
  - exact Hzf.
  - exact Hw.
  - intros i v wv Hv Hwv. rewrite (Hw _ _ Hv) in Hwv.
    apply (inj Some) in Hwv. subst wv.
    assert (H1 := sqrt_one_plus_sq_ge ((v - 3 * zr) / zr)).
    split; [nra|]. split.
    + intros E.
      assert (E' : sqrt (1 + ((v - 3 * zr) / zr) ^ 2) = 1) by nra.
      apply sqrt_one_plus_sq_eq in E'.
      assert (v - 3 * zr = 0); [|lra].
      apply (Rmult_eq_compat_r zr) in E'. field_simplify in E'; lra.
    + intros ->. replace ((3 * zr - 3 * zr) / zr) with 0 by (field; lra).
      replace (1 + 0 ^ 2) with 1 by ring. rewrite sqrt_1. ring.
  - intros i j u v wu wv Hu Hv Hwu Hwv.
    rewrite (Hw _ _ Hu) in Hwu. rewrite (Hw _ _ Hv) in Hwv.
    apply (inj Some) in Hwu, Hwv. subst wu wv.
    split; intros H1 H2; apply Rmult_lt_compat_l; try exact Hw0;
      apply sqrt_one_plus_sq_lt, Hsq; nra.
Qed.







Lemma e_m2_eq : Script.e_m2 = exp (- 2).
Proof.
  unfold Script.e_m2. replace (-2) with (- (1 + 1)) by ring.
  rewrite exp_Ropp, exp_plus. simpl. f_equal. ring.
Qed.

Lemma e_m2_pos : 0 < Script.e_m2.
Proof. rewrite e_m2_eq. apply exp_pos. Qed.

Lemma Cmod_sq_nonneg (c : C) : 0 <= Cmod c ^ 2.
Proof. apply pow2_ge_0. Qed.

Lemma foldl_Rmax_ge (f : list R) (v : R) : v <= foldl Rmax v f.
Proof.
  revert v. induction f as [|u f IH]; intros v; simpl; [lra|].
  etransitivity; [apply (Rmax_l v u)|apply IH].
Qed.

Lemma foldl_Rmax_ub (f : list R) (v u : R) : u ∈ f -> u <= foldl Rmax v f.
Proof.
  revert v. induction f as [|u' f IH]; intros v Hin; simpl.
  - inversion Hin.
  - apply elem_of_cons in Hin as [->|Hin]; [|apply IH, Hin].
    etransitivity; [apply (Rmax_r v u')|apply foldl_Rmax_ge].
Qed.

Lemma foldl_Rmax_in (f : list R) (v : R) : foldl Rmax v f = v \/ foldl Rmax v f ∈ f.
Proof.
  revert v. induction f as [|u f IH]; intros v; simpl; [auto|].
  destruct (IH (Rmax v u)) as [E|Hin].
  - rewrite E. unfold Rmax. destruct (Rle_dec v u); [|auto].
    right. apply list_elem_of_here.
  - right. apply list_elem_of_further, Hin.
Qed.

Lemma max_spec (f : list R) (top : R) :
  Np.max f = Some top -> top ∈ f /\ forall u, u ∈ f -> u <= top.
Proof.
  destruct f as [|v f]; simpl; [discriminate|]. intros [= <-]. split.
  - destruct (foldl_Rmax_in f v) as [->|H].
    + apply list_elem_of_here.
    + apply list_elem_of_further, H.
  - intros u Hu. apply elem_of_cons in Hu as [->|Hu].
    + apply foldl_Rmax_ge.
    + apply foldl_Rmax_ub, Hu.
Qed.

Lemma max_is_Some (f : list R) : (0 < length f)%nat -> is_Some (Np.max f).
Proof. destruct f; simpl; [lia|eauto]. Qed.

(** The two masked assignments of the script, in the script's order,
    amount to one comparison with the threshold when the threshold is not
    negative. *)
Lemma masks_in_order (t : R) (f : list R) :
  0 <= t ->
  Np.assign_where (fun v => Script.gtb v t) 1.0
    (Np.assign_where (fun v => Script.leb v t) 0.0 f)
  = (fun v : R => if Rgt_dec v t then 1 else 0) <$> f.
Proof.
  intros Ht. unfold Np.assign_where. rewrite <- list_fmap_compose.
  apply list_fmap_ext. intros _ v _. simpl. unfold Script.leb, Script.gtb.
  destruct (Rle_dec v t) as [Hle|Hgt].
  - destruct (Rgt_dec 0.0 t) as [H|_]; [unlit; lra|].
    destruct (Rgt_dec v t); [lra|]. unlit. lra.
  - destruct (Rgt_dec v t); [unlit; lra|lra].
Qed.

Section Shapes.
Context {A : Type}.

Lemma column3_spec (a : list (list (list A))) (n0 n1 n2 j k : nat) :
  Np.shape3 a n0 n1 n2 -> (j < n1)%nat -> (k < n2)%nat ->
  exists col, Np.column3 a j k = Some col /\ length col = n0 /\
    forall i, (i < n0)%nat -> exists c, col !! i = Some c /\ Np.get3 a i j k = Some c.
Proof.
  intros [Hlen Hall] Hj Hk.
  assert (Hsome : is_Some (Np.column3 a j k)).
  { apply mapM_is_Some, Forall_forall. intros p Hp.
    rewrite Forall_forall in Hall. destruct (Hall p Hp) as [Hp0 Hp1].
    destruct (lookup_lt_is_Some_2 p j) as [row Hrow]; [lia|].
    unfold compose. rewrite Hrow. simpl. apply lookup_lt_is_Some_2.
    rewrite Forall_lookup in Hp1. rewrite (Hp1 _ _ Hrow). exact Hk. }
  destruct Hsome as [col Hcol]. exists col. split; [exact Hcol|].
  assert (Hcol' := Hcol). apply mapM_Some_1 in Hcol'.
  split; [apply length_mapM in Hcol; lia|].
  intros i Hi.
  destruct (lookup_lt_is_Some_2 a i) as [p Hp]; [lia|].
  destruct (Forall2_lookup_l _ _ _ _ _ Hcol' Hp) as (c & Hc & Hpc).
  exists c. split; [exact Hc|]. unfold Np.get3. rewrite Hp. exact Hpc.
Qed.

Lemma slice_mid_spec (a : list (list (list A))) (n0 n1 n2 j : nat) :
  Np.shape3 a n0 n1 n2 -> (j < n1)%nat ->
  exists sl, Np.slice_mid a j = Some sl /\ Np.shape2 sl n0 n2.
Proof.
  intros [Hlen Hall] Hj.
  assert (Hsome : is_Some (Np.slice_mid a j)).
  { apply mapM_is_Some, Forall_forall. intros p Hp.
    rewrite Forall_forall in Hall. destruct (Hall p Hp) as [Hp0 Hp1].
    apply lookup_lt_is_Some_2. lia. }
  destruct Hsome as [sl Hsl]. exists sl. split; [exact Hsl|].
  assert (Hsl' := Hsl). apply mapM_Some_1 in Hsl'.
  split; [apply length_mapM in Hsl; lia|].
  apply Forall_lookup. intros i row Hrow.
  destruct (Forall2_lookup_r _ _ _ _ _ Hsl' Hrow) as (p & Hp & Hpj).
  rewrite Forall_lookup in Hall. destruct (Hall _ _ Hp) as [_ Hp1].
  rewrite Forall_lookup in Hp1. eauto.
Qed.

Lemma shape_last_eq (a : list (list (list A))) (n0 n1 n2 : nat) :
  Np.shape3 a n0 n1 n2 -> (0 < n0)%nat -> (0 < n1)%nat -> Script.shape_last a = n2.
Proof.
  intros [Hlen Hall] H0 H1. destruct a as [|p a]; simpl in *; [lia|].
  apply Forall_cons in Hall as [[Hp0 Hp1] _].
  destruct p as [|row p]; simpl in *; [lia|].
  apply Forall_cons in Hp1 as [Hrow _]. exact Hrow.
Qed.

Lemma set_column_spec (a : list (list A)) (n0 n1 j : nat) (f : list A) :
  Np.shape2 a n0 n1 -> length f = n0 -> (j < n1)%nat ->
  exists a', Np.set_column a j f = Some a' /\ Np.shape2 a' n0 n1 /\
    forall i k, Np.get2 a' i k = if decide (k = j) then f !! i else Np.get2 a i k.
Proof.
  intros [Hlen Hall] Hf Hj. unfold Np.set_column.
  match goal with |- context [Np.zip_strict ?g a f] => set (upd := g) end.
  destruct (zip_strict_is_Some upd a f) as [a' Ha']; [lia| |].
  { intros i row v Hrow _. unfold upd.
    rewrite Forall_lookup in Hall. rewrite (Hall _ _ Hrow).
    rewrite decide_True by exact Hj. eauto. }
  exists a'. split; [exact Ha'|].
  destruct (zip_strict_length _ _ _ _ Ha') as [Hl1 Hl2].
  assert (Hrows : forall i row', a' !! i = Some row' ->
    exists row v, a !! i = Some row /\ f !! i = Some v /\ row' = <[j:=v]> row
                  /\ length row = n1).
  { intros i row' Hrow'.
    destruct (zip_strict_lookup _ _ _ _ _ _ Ha' Hrow') as (row & v & Hrow & Hv & E).
    unfold upd in E. rewrite Forall_lookup in Hall.
    rewrite (Hall _ _ Hrow), decide_True in E by exact Hj.
    exists row, v. split_and!; eauto. congruence. }
  split.
  - split; [lia|]. apply Forall_lookup. intros i row' Hrow'.
    destruct (Hrows _ _ Hrow') as (row & v & _ & _ & -> & Hn).
    rewrite length_insert. exact Hn.
  - intros i k. unfold Np.get2.
    destruct (a' !! i) as [row'|] eqn:Hrow'.
    + destruct (Hrows _ _ Hrow') as (row & v & Hrow & Hv & -> & Hn).
      rewrite Hrow, Hv. simpl. destruct (decide (k = j)) as [->|Hne].
      * apply list_lookup_insert_eq. lia.
      * apply list_lookup_insert_ne. congruence.
    + assert (Hi : (length a' <= i)%nat) by (apply lookup_ge_None; exact Hrow').
      rewrite (lookup_ge_None_2 a i) by lia.
      rewrite (lookup_ge_None_2 f i) by lia.
      simpl. destruct (decide (k = j)); reflexivity.
Qed.
End Shapes.

Lemma thresh_body_spec (Field : list (list (list C))) (n0 n1 n2 zi : nat) :
  Np.shape3 Field n0 n1 n2 -> (0 < n0)%nat -> (Script.mid < n1)%nat -> (zi < n2)%nat ->
  exists col top,
    Np.column3 Field Script.mid zi = Some col /\ length col = n0 /\
    Np.max ((fun c : C => Cmod c ^ 2) <$> col) = Some top /\
    Script.thresh_body Field zi
    = Some ((fun v : R => if Rgt_dec v (top * Script.e_m2) then 1 else 0)
              <$> ((fun c : C => Cmod c ^ 2) <$> col)).
Proof.
  intros Hsh H0 Hmid Hzi.
  destruct (column3_spec Field n0 n1 n2 Script.mid zi Hsh Hmid Hzi)
    as (col & Hcol & Hlen & _).
  destruct (max_is_Some ((fun c : C => Cmod c ^ 2) <$> col)) as [top Htop].
  { rewrite length_fmap. lia. }
  exists col, top. split_and!; try assumption.
  unfold Script.thresh_body. rewrite Hcol. cbn [mbind option_bind].
  rewrite Htop. cbn [mbind option_bind].
  f_equal. apply masks_in_order.
  destruct (max_spec _ _ Htop) as [Hin _].
  apply list_elem_of_fmap in Hin as (c & -> & _).
  apply Rmult_le_pos; [apply Cmod_sq_nonneg|]. left. apply e_m2_pos.
Qed.

Lemma thresh_loop_spec (Field : list (list (list C))) (zis : list nat)
    (T : list (list R)) (n0 n2 : nat) :
  Np.shape2 T n0 n2 ->
  (forall zi, zi ∈ zis ->
     (zi < n2)%nat /\ exists f, Script.thresh_body Field zi = Some f /\ length f = n0) ->
  exists T', Script.thresh_loop Field T zis = Some T' /\ Np.shape2 T' n0 n2 /\
    forall i zi,
      Np.get2 T' i zi
      = if decide (zi ∈ zis)
        then Script.thresh_body Field zi ≫= (fun f : list R => f !! i)
        else Np.get2 T i zi.
Proof.
  revert T. induction zis as [|z0 zis IH]; intros T HT Hbody.
  - exists T. split_and!; [reflexivity|exact HT|].
    intros i zi. rewrite decide_False; [reflexivity|]. apply not_elem_of_nil.
  - destruct (Hbody z0) as (Hz0 & f & Hf & Hlen); [apply list_elem_of_here|].
    destruct (set_column_spec T n0 n2 z0 f HT Hlen Hz0) as (T1 & HT1 & Hsh1 & Hget1).
    destruct (IH T1 Hsh1) as (T' & HT' & Hsh' & Hget').
    { intros zi Hzi. apply Hbody, list_elem_of_further, Hzi. }
    exists T'. split_and!.
    + cbn [Script.thresh_loop]. rewrite Hf. simpl. rewrite HT1. simpl. exact HT'.
    + exact Hsh'.
    + intros i zi. rewrite Hget'.
      destruct (decide (zi ∈ zis)) as [Hin|Hnin].
      * rewrite decide_True by (apply list_elem_of_further, Hin). reflexivity.
      * rewrite Hget1. destruct (decide (zi = z0)) as [->|Hne].
        -- rewrite decide_True by apply list_elem_of_here. rewrite Hf. reflexivity.
        -- rewrite decide_False; [reflexivity|].
           intros Hin. apply elem_of_cons in Hin as [?|?]; contradiction.
Qed.

(** C4.  With the two masked assignments in the order of the script
    (zeros first, then ones), for a field of shape (n0, n1, n2) with
    [n0 > 0] and [mid < n1] the loop of lines 181 to 187 completes, and
    for every [zi] every entry of [thresh[:, zi]] is 0 or 1: it is 1
    exactly when the intensity [|Field[i, mid, zi]|^2] is strictly greater
    than [e^(-2)] times the maximum intensity of the slice, and 0 exactly
    when it is at most that threshold. *)
Theorem C4_thresh_in_script_order (Field : list (list (list C))) (n0 n1 n2 : nat) :
  Np.shape3 Field n0 n1 n2 -> (0 < n0)%nat -> (Script.mid < n1)%nat ->
  Script.e_m2 = exp (- 2) /\
  exists thresh,
    Script.thresh Field = Some thresh /\ Np.shape2 thresh n0 n2 /\
    forall zi, (zi < n2)%nat ->
      exists col top,
        Np.column3 Field Script.mid zi = Some col /\
        Np.max ((fun c : C => Cmod c ^ 2) <$> col) = Some top /\
        (forall i c, col !! i = Some c -> Cmod c ^ 2 <= top) /\
        forall i, (i < n0)%nat ->
          exists c t,
            Np.get3 Field i Script.mid zi = Some c /\
            Np.get2 thresh i zi = Some t /\
            (t = 0 \/ t = 1) /\
            (t = 1 <-> Cmod c ^ 2 > exp (- 2) * top) /\
            (t = 0 <-> Cmod c ^ 2 <= exp (- 2) * top).
Proof.
  intros Hsh H0 Hmid. split; [apply e_m2_eq|].
  destruct (slice_mid_spec Field n0 n1 n2 Script.mid Hsh Hmid) as (sl & Hsl & Hshsl).
  assert (HT0 : Np.shape2 (Np.zeros_like2 sl) n0 n2).
  { destruct Hshsl as [Hl Hrows]. split; [unfold Np.zeros_like2; rewrite length_fmap; exact Hl|].
    unfold Np.zeros_like2. apply Forall_fmap.
    eapply Forall_impl; [exact Hrows|]. intros row Hrow. simpl.
    rewrite length_fmap. exact Hrow. }
  destruct (thresh_loop_spec Field (seq 0 n2) (Np.zeros_like2 sl) n0 n2 HT0)
    as (T & HT & HshT & HgetT).
  { intros zi Hzi. apply elem_of_seq in Hzi. split; [lia|].
    destruct (thresh_body_spec Field n0 n1 n2 zi Hsh H0 Hmid) as (col & top & _ & Hlen & _ & Hb);
      [lia|].
    eexists. split; [exact Hb|]. rewrite !length_fmap. exact Hlen. }
  exists T. split_and!.
  - unfold Script.thresh. rewrite Hsl. simpl.
    rewrite (shape_last_eq Field n0 n1 n2 Hsh H0) by lia. exact HT.
  - exact HshT.
  - intros zi Hzi.
    destruct (thresh_body_spec Field n0 n1 n2 zi Hsh H0 Hmid Hzi)
      as (col & top & Hcol & Hlen & Htop & Hb).
    exists col, top. split_and!; try assumption.
    + intros i c Hc. destruct (max_spec _ _ Htop) as [_ Hub]. apply Hub.
      apply list_elem_of_fmap. exists c. split; [reflexivity|].
      eapply list_elem_of_lookup_2, Hc.
    + intros i Hi.
      destruct (column3_spec Field n0 n1 n2 Script.mid zi Hsh Hmid Hzi)
        as (col' & Hcol' & _ & Hent).
      assert (col' = col) by congruence. subst col'.
      destruct (Hent i Hi) as (c & Hc & Hget).
      exists c, (if Rgt_dec (Cmod c ^ 2) (top * Script.e_m2) then 1 else 0).
      split_and!.
      * exact Hget.
      * rewrite HgetT. rewrite decide_True by (apply elem_of_seq; lia).
        rewrite Hb. simpl. rewrite !list_lookup_fmap, Hc. reflexivity.
      * destruct (Rgt_dec _ _); auto.
      * rewrite e_m2_eq. destruct (Rgt_dec _ _) as [H|H]; split; intros; lra.
      * rewrite e_m2_eq. destruct (Rgt_dec _ _) as [H|H]; split; intros; lra.
Qed.

Lemma Cmod_sq (c : C) : Cmod c ^ 2 = fst c ^ 2 + snd c ^ 2.
Proof.
  unfold Cmod. rewrite <- (Rsqr_pow2 (sqrt _)), Rsqr_sqrt; [reflexivity|nra].
Qed.

Lemma e_m2_bounds : 1 / 9 <= Script.e_m2 < 1 / 4.
Proof.
  rewrite e_m2_eq. replace (- 2) with (- (1 + 1)) by ring.
  rewrite exp_Ropp, exp_plus.
  assert (H3 := exp_le_3). assert (H2 : 2 < exp 1).
  { assert (H := exp_ineq1 1). lra. }
  assert (Hpos : 0 < exp 1 * exp 1) by nra.
  split.
  - apply Rmult_le_reg_r with (exp 1 * exp 1); [exact Hpos|].
    rewrite Rinv_l by lra. nra.
  - apply Rmult_lt_reg_r with (exp 1 * exp 1); [exact Hpos|].
    rewrite Rinv_l by lra. nra.
Qed.

Lemma column3_Field_4_1 : Np.column3 Field_4_1 Script.mid 0 = Some [RtoC 4; RtoC 1].
Proof.
  change Script.mid with 256%nat. unfold Np.column3, Field_4_1.
  cbn [mapM]. rewrite !lookup_replicate_2 by lia. reflexivity.
Qed.

Lemma max_16_1 :
  Np.max ((fun c : C => Cmod c ^ 2) <$> [RtoC 4; RtoC 1]) = Some 16.
Proof.
  cbn [fmap list_fmap Np.max foldl]. rewrite !Cmod_sq. cbn [RtoC fst snd].
  f_equal. unfold Rmax. destruct (Rle_dec _ _); lra.
Qed.

(** C4: the order of the two masked assignments matters.  For the column
    of amplitudes 4 and 1 the threshold is [16*e^(-2) >= 1]; the script's order gives the entry 1 for the
    intensity 16, the exchanged order sets it to 1 and then back to 0. *)
Lemma C4_order_of_masks_matters :
  Np.shape3 Field_4_1 2 257 1 /\
  (exists c top,
     Np.get3 Field_4_1 0 Script.mid 0 = Some c /\
     (Np.column3 Field_4_1 Script.mid 0
        ≫= (fun col : list C => Np.max ((fun c : C => Cmod c ^ 2) <$> col)))
     = Some top /\
     Cmod c ^ 2 > exp (- 2) * top /\
     Script.thresh_body Field_4_1 0 ≫= (fun f : list R => f !! 0%nat) = Some 1 /\
     thresh_body_swapped Field_4_1 0 ≫= (fun f : list R => f !! 0%nat) = Some 0) /\
  thresh_body_swapped Field_4_1 0 <> Script.thresh_body Field_4_1 0.
Proof.
  assert (Hb := e_m2_bounds).
  assert (Hsrc : Script.thresh_body Field_4_1 0 = Some [1; 0]).
  { unfold Script.thresh_body. rewrite column3_Field_4_1. cbn [mbind option_bind].
    rewrite max_16_1. cbn [mbind option_bind]. f_equal.
    rewrite masks_in_order by lra.
    cbn [fmap list_fmap]. rewrite !Cmod_sq. cbn [RtoC fst snd].
    repeat destruct (Rgt_dec _ _); try lra; reflexivity. }
  assert (Hswp : thresh_body_swapped Field_4_1 0 = Some [0; 0]).
  { unfold thresh_body_swapped. rewrite column3_Field_4_1. cbn [mbind option_bind].
    rewrite max_16_1. cbn [mbind option_bind]. f_equal.
    unfold Np.assign_where. cbn [fmap list_fmap]. rewrite !Cmod_sq. cbn [RtoC fst snd].
    unfold Script.gtb, Script.leb.
    repeat (destruct (Rgt_dec _ _) || destruct (Rle_dec _ _));
      unlit; try lra; try (f_equal; [lra|f_equal; lra]). }
  split_and!.
  - split; [reflexivity|]. repeat constructor; apply Forall_replicate; reflexivity.
  - exists (RtoC 4), 16. split_and!.
    + change Script.mid with 256%nat. unfold Np.get3, Field_4_1.
      cbn [lookup list_lookup mbind option_bind].
      rewrite lookup_replicate_2 by lia. reflexivity.
    + rewrite column3_Field_4_1. cbn [mbind option_bind]. apply max_16_1.
    + rewrite Cmod_sq. cbn [RtoC fst snd]. rewrite <- e_m2_eq. lra.
    + rewrite Hsrc. reflexivity.
    + rewrite Hswp. reflexivity.
  - rewrite Hsrc, Hswp. intros [= H]. lra.
Qed.

(** ** Small runs of the numpy operations *)

Example linspace_0_1_3 :
  Np.linspace 0 1 3 !! 0%nat = Some 0 /\
  Np.linspace 0 1 3 !! 1%nat = Some (1 / 2) /\
  Np.linspace 0 1 3 !! 2%nat = Some 1 /\
  length (Np.linspace 0 1 3) = 3%nat.
Proof.
  rewrite !lookup_linspace by lia. rewrite length_linspace.
  split_and!; try reflexivity; f_equal; simpl; lra.
Qed.

Example argmin_first_of_ties : Np.argmin [3; 1; 2; 1] = Some 1%nat.
Proof. cbn. repeat (destruct (Rlt_dec _ _); try lra). reflexivity. Qed.

Example meshgrid_2_3 :
  Np.meshgrid [1; 2] [5; 6; 7]
  = ([[1; 2]; [1; 2]; [1; 2]], [[5; 5]; [6; 6]; [7; 7]]).
Proof. reflexivity. Qed.

Example set_column_1 :
  Np.set_column [[0; 0]; [0; 0]] 1 [7; 8] = Some [[0; 7]; [0; 8]].
Proof. reflexivity. Qed.

Example set_column_wrong_length :
  Np.set_column [[0; 0]; [0; 0]] 1 [7] = None.
Proof. reflexivity. Qed.

(** ** Instances at concrete inputs *)

Lemma shape2_replicate {A} (n0 n1 : nat) (v : A) :
  Np.shape2 (replicate n0 (replicate n1 v)) n0 n1.
Proof.
  split; [apply length_replicate|]. apply Forall_replicate, length_replicate.
Qed.

Lemma shape3_Field_4_1 : Np.shape3 Field_4_1 2 257 1.
Proof.
  split; [reflexivity|]. repeat constructor; apply Forall_replicate; reflexivity.
Qed.




Lemma C1_witness :
  Script.Rz 1 < 0 /\
  is_Some (Script.inputBeam_91 1e-6 1e-15 1 (replicate 512 (replicate 512 (RtoC 1))) (Script.X 1e-6) (Script.Y 1e-6)).
Proof.
  destruct (C1_initial_field 1e-6 1e-15 1 (replicate 512 (replicate 512 (RtoC 1))))
    as (_ & _ & HRz & _ & _ & _ & F & HF & _).
  - lra.
  - lra.
  - apply shape2_replicate.
  - split; [exact HRz|]. exists F. exact HF.
Defined.

Lemma C3_witness :
  Script.zf_192 1e-6 1e-15 1 = 3 * Script.zR_191 1e-6 1e-15 1.
Proof.
  destruct (C3_analytic_waist 1e-6 1e-15 1 [0; 1]) as (_ & H & _).
  - lra.
  - exact H.
Defined.

Lemma C4_witness :
  exists thresh, Script.thresh Field_4_1 = Some thresh /\ Np.shape2 thresh 2 1.
Proof.
  destruct (C4_thresh_in_script_order Field_4_1 2 257 1) as (_ & T & HT & Hsh & _).
  - exact shape3_Field_4_1.
  - lia.
  - change Script.mid with 256%nat. lia.
  - exists T. split; assumption.
Defined.




(** ** The trace of a statement *)



Section Traced.
Context (allowed : op -> bool).










End Traced.















Lemma bind_inl {A B} (m : M A) (k : A -> M B) s e s1 :
  m s = (inl e, s1) -> bind m k s = (inl e, s1).
Proof. intros E. unfold bind. rewrite E. reflexivity. Qed.

Lemma bind_inr {A B} (m : M A) (k : A -> M B) s a s1 :
  m s = (inr a, s1) -> bind m k s = k a s1.
Proof. intros E. unfold bind. rewrite E. reflexivity. Qed.

Section Phases.
Context (um fs : R) (get_zr : LP.t -> ext R)
  (make_inputBeam : loc -> loc -> LP.t -> ext loc)
  (shadow phase : aref -> ext loc)
  (setup_propagate : loc -> loc -> loc -> loc -> loc -> R -> R -> nat -> ext sp_out)
  (propagate_in_z :
     loc -> loc -> loc -> loc -> loc -> loc -> loc -> loc -> loc -> R -> ext loc)
  (explorer : loc -> loc -> loc -> ext loc)
  (MidpointNormalize : R -> R -> R -> ext loc)
  (import_fails : string -> option exn)
  (plot_fails : nat -> gmap loc ndarray -> option exn).

Local Abbreviation the_setup :=
  (setup um fs get_zr make_inputBeam shadow phase import_fails plot_fails).
Local Abbreviation the_propagate := (propagate setup_propagate propagate_in_z).
Local Abbreviation the_analysis :=
  (analysis um fs shadow phase explorer MidpointNormalize plot_fails).
Local Abbreviation the_script :=
  (script um fs get_zr make_inputBeam shadow phase setup_propagate propagate_in_z
     explorer MidpointNormalize import_fails plot_fails).





End Phases.




(** ** The arrays a statement leaves as they are *)

Section Leaves.
Context (l : loc).



(** A new array is not the array at [l], which exists already. *)
Lemma leaves_bind_alloc {B} (a : ndarray) (k : loc -> M B) :
  (forall l', l' <> l -> leaves l (k l')) -> leaves l (bind (alloc a) k).
Proof.
  intros Hk s v Hv. unfold bind, alloc.
  set (l' := fresh (dom (heap s))).
  assert (Hne : l' <> l).
  { intros E. apply (is_fresh (dom (heap s))). fold l'. rewrite E.
    apply elem_of_dom. eauto. }
  apply (Hk l' Hne). simpl. rewrite lookup_insert_ne by exact Hne. exact Hv.
Qed.





Lemma leaves_store (l' : loc) (a : ndarray) : l' <> l -> leaves l (store l' a).
Proof. intros Hne s v Hv. simpl. rewrite lookup_insert_ne by exact Hne. exact Hv. Qed.




End Leaves.






(** ** Small runs of the script *)

(** When the first import fails the script ends there, with that
    exception, whatever the library is. *)
Example script_import_fails
    um fs get_zr make_inputBeam shadow phase setup_propagate propagate_in_z
    explorer MidpointNormalize plot_fails (s0 : state) :
  script um fs get_zr make_inputBeam shadow phase setup_propagate propagate_in_z
    explorer MidpointNormalize (fun _ => Some (OtherError 0)) plot_fails s0
  = (inl (OtherError 0),
     State (heap s0) (trace s0 ++ [Ev (OpImport "numpy") (Some (OtherError 0))])).
Proof. reflexivity. Qed.

(** A copy lives at a new location: writing it leaves the original. *)
Example copy_then_write :
  heap (snd (bind (alloc (Arr1R [1; 2])) (fun f => store f (Arr1R [0; 0]))
               (State {[O := Arr1R [1; 2]]} []))) !! O
  = Some (Arr1R [1; 2]).
Proof.
  apply (leaves_bind_alloc O (Arr1R [1; 2])
           (fun f => store f (Arr1R [0; 0]))).
  - intros l' Hne. apply leaves_store, Hne.
  - apply lookup_singleton_eq.
Qed.


(** * Further properties of the script *)

(** ** The threshold array *)

(** The content of [thresh], column by column. *)
Lemma thresh_entries (Field : list (list (list C))) (n0 n1 n2 : nat) :
  Np.shape3 Field n0 n1 n2 -> (0 < n0)%nat -> (Script.mid < n1)%nat ->
  exists T,
    Script.thresh Field = Some T /\ Np.shape2 T n0 n2 /\
    forall zi, (zi < n2)%nat ->
      exists col top,
        Np.column3 Field Script.mid zi = Some col /\ length col = n0 /\
        Np.max ((fun c : C => Cmod c ^ 2) <$> col) = Some top /\
        forall i c, col !! i = Some c ->
          Np.get2 T i zi
          = Some (if Rgt_dec (Cmod c ^ 2) (top * Script.e_m2) then 1 else 0).
Proof.
  intros Hsh H0 Hmid.
  destruct (slice_mid_spec Field n0 n1 n2 Script.mid Hsh Hmid) as (sl & Hsl & Hshsl).
  assert (HT0 : Np.shape2 (Np.zeros_like2 sl) n0 n2).
  { destruct Hshsl as [Hl Hrows]. unfold Np.zeros_like2.
    split; [rewrite length_fmap; exact Hl|].
    apply Forall_fmap. eapply Forall_impl; [exact Hrows|]. intros row Hrow. simpl.
    rewrite length_fmap. exact Hrow. }
  destruct (thresh_loop_spec Field (seq 0 n2) (Np.zeros_like2 sl) n0 n2 HT0)
    as (T & HT & HshT & HgetT).
  { intros zi Hzi. apply elem_of_seq in Hzi. split; [lia|].
    destruct (thresh_body_spec Field n0 n1 n2 zi Hsh H0 Hmid)
      as (col & top & _ & Hlen & _ & Hb); [lia|].
    eexists. split; [exact Hb|]. rewrite !length_fmap. exact Hlen. }
  exists T. split_and!.
  - unfold Script.thresh. rewrite Hsl. simpl.
    rewrite (shape_last_eq Field n0 n1 n2 Hsh H0) by lia. exact HT.
  - exact HshT.
  - intros zi Hzi.
    destruct (thresh_body_spec Field n0 n1 n2 zi Hsh H0 Hmid Hzi)
      as (col & top & Hcol & Hlen & Htop & Hb).
    exists col, top. split_and!; try assumption.
    intros i c Hc. rewrite HgetT. rewrite decide_True by (apply elem_of_seq; lia).
    rewrite Hb. simpl. rewrite !list_lookup_fmap, Hc. reflexivity.
Qed.

(** Every column of [thresh] marks the brightest pixel of its slice, unless
    the slice is dark: a column holds a 1 exactly when the maximum
    intensity of the slice is positive, and is all zeros when it is 0. *)
Theorem thresh_column_marks_maximum (Field : list (list (list C))) (n0 n1 n2 : nat) :
  Np.shape3 Field n0 n1 n2 -> (0 < n0)%nat -> (Script.mid < n1)%nat ->
  exists T,
    Script.thresh Field = Some T /\
    forall zi, (zi < n2)%nat ->
      exists col top,
        Np.column3 Field Script.mid zi = Some col /\
        Np.max ((fun c : C => Cmod c ^ 2) <$> col) = Some top /\
        0 <= top /\
        (0 < top ->
           exists i c, col !! i = Some c /\ Cmod c ^ 2 = top /\
                       Np.get2 T i zi = Some 1) /\
        (top = 0 -> forall i, (i < n0)%nat -> Np.get2 T i zi = Some 0).
Proof.
  intros Hsh H0 Hmid.
  destruct (thresh_entries Field n0 n1 n2 Hsh H0 Hmid) as (T & HT & _ & Hent).
  exists T. split; [exact HT|]. intros zi Hzi.
  destruct (Hent zi Hzi) as (col & top & Hcol & Hlen & Htop & Hget).
  exists col, top. split_and!; try assumption.
  - destruct (max_spec _ _ Htop) as [Hin _].
    apply list_elem_of_fmap in Hin as (c & -> & _). apply Cmod_sq_nonneg.
  - intros Hpos. destruct (max_spec _ _ Htop) as [Hin _].
    apply list_elem_of_fmap in Hin as (c & Hc & Hcin).
    apply list_elem_of_lookup in Hcin as [i Hi].
    exists i, c. split_and!; [exact Hi|symmetry; exact Hc|].
    rewrite (Hget i c Hi). destruct (Rgt_dec _ _) as [_|Hn]; [reflexivity|].
    exfalso. apply Hn. rewrite <- Hc. assert (Hb := e_m2_bounds). nra.
  - intros Hz i Hi.
    destruct (lookup_lt_is_Some_2 col i) as [c Hc]; [lia|].
    rewrite (Hget i c Hc). destruct (Rgt_dec _ _) as [Hgt|_]; [|reflexivity].
    exfalso. destruct (max_spec _ _ Htop) as [_ Hub].
    assert (Cmod c ^ 2 <= top).
    { apply Hub, list_elem_of_fmap. exists c. split; [reflexivity|].
      eapply list_elem_of_lookup_2, Hc. }
    rewrite Hz in *. lra.
Qed.

Lemma thresh_column_marks_maximum_witness :
  exists T, Script.thresh Field_4_1 = Some T.
Proof.
  destruct (thresh_column_marks_maximum Field_4_1 2 257 1) as (T & HT & _).
  - exact shape3_Field_4_1.
  - lia.
  - change Script.mid with 256%nat. lia.
  - exists T. exact HT.
Defined.

Lemma column3_via_slice_mid {A} (a : list (list (list A))) (j k : nat) :
  Np.column3 a j k = Np.slice_mid a j ≫= (fun sl : list (list A) => Np.column sl k).
Proof.
  unfold Np.column3, Np.slice_mid, Np.column.
  induction a as [|p a IH]; [reflexivity|].
  cbn [mapM]. rewrite IH. clear IH.
  destruct (p !! j) as [row|]; [|reflexivity]. cbn [mbind option_bind].
  destruct (mapM (fun p0 : list (list A) => p0 !! j) a) as [sl|];
    cbn [mbind option_bind mret option_ret mapM].
  - destruct (row !! k); reflexivity.
  - destruct (row !! k); reflexivity.
Qed.

Lemma thresh_body_ext (F F' : list (list (list C))) (zi : nat) :
  Np.slice_mid F Script.mid = Np.slice_mid F' Script.mid ->
  Script.thresh_body F zi = Script.thresh_body F' zi.
Proof.
  intros Hsl. unfold Script.thresh_body.
  rewrite !column3_via_slice_mid, Hsl. reflexivity.
Qed.

Lemma thresh_loop_ext (F F' : list (list (list C))) (zis : list nat) (T : list (list R)) :
  Np.slice_mid F Script.mid = Np.slice_mid F' Script.mid ->
  Script.thresh_loop F T zis = Script.thresh_loop F' T zis.
Proof.
  intros Hsl. revert T. induction zis as [|zi zis IH]; intros T; [reflexivity|].
  cbn [Script.thresh_loop]. rewrite (thresh_body_ext F F' zi Hsl).
  destruct (Script.thresh_body F' zi) as [f|]; [|reflexivity]. cbn [mbind option_bind].
  destruct (Np.set_column T zi f) as [T'|]; [|reflexivity]. cbn [mbind option_bind].
  apply IH.
Qed.

(** The threshold array is read off the slice [Field[:, mid, :]] alone: two
    fields with the same last dimension that agree on that slice give the
    same [thresh], whatever they hold elsewhere. *)
Theorem thresh_reads_only_mid_slice (F F' : list (list (list C))) :
  Np.slice_mid F Script.mid = Np.slice_mid F' Script.mid ->
  Script.shape_last F = Script.shape_last F' ->
  Script.thresh F = Script.thresh F'.
Proof.
  intros Hsl Hlast. unfold Script.thresh. rewrite Hlast.
  destruct (Np.slice_mid F' Script.mid) as [sl|] eqn:E; rewrite Hsl; [|reflexivity].
  cbn [mbind option_bind]. apply thresh_loop_ext. congruence.
Qed.

Lemma slice_mid_Field_4_1 : Np.slice_mid Field_4_1 Script.mid = Some [[RtoC 4]; [RtoC 1]].
Proof.
  change Script.mid with 256%nat. unfold Np.slice_mid, Field_4_1. cbn [mapM].
  rewrite !lookup_replicate_2 by lia. reflexivity.
Qed.

Lemma slice_mid_Field_4_1_other :
  Np.slice_mid Field_4_1_other Script.mid = Some [[RtoC 4]; [RtoC 1]].
Proof.
  change Script.mid with 256%nat. unfold Np.slice_mid, Field_4_1_other. cbn [mapM].
  rewrite !lookup_app_r by (rewrite length_replicate; lia).
  rewrite !length_replicate. reflexivity.
Qed.

Lemma thresh_reads_only_mid_slice_witness :
  Script.thresh Field_4_1 = Script.thresh Field_4_1_other.
Proof.
  apply thresh_reads_only_mid_slice.
  - rewrite slice_mid_Field_4_1, slice_mid_Field_4_1_other. reflexivity.
  - reflexivity.
Defined.

(** When [mid] is no index of the second axis of some plane of [Field], the
    slice of line 180 does not exist and [thresh] is not produced. *)
Theorem thresh_mid_out_of_range (Field : list (list (list C))) (i : nat)
    (p : list (list C)) :
  Field !! i = Some p -> (length p <= Script.mid)%nat ->
  Np.slice_mid Field Script.mid = None /\ Script.thresh Field = None.
Proof.
  intros Hp Hlen.
  assert (H : Np.slice_mid Field Script.mid = None).
  { apply mapM_None. apply Exists_exists. exists p. split.
    - eapply list_elem_of_lookup_2, Hp.
    - apply lookup_ge_None_2, Hlen. }
  split; [exact H|]. unfold Script.thresh. rewrite H. reflexivity.
Qed.

Lemma thresh_mid_out_of_range_witness :
  Script.thresh [[[RtoC 1; RtoC 2]]] = None.
Proof.
  apply (thresh_mid_out_of_range [[[RtoC 1; RtoC 2]]] 0 [[RtoC 1; RtoC 2]]).
  - reflexivity.
  - change Script.mid with 256%nat. simpl. lia.
Defined.

(** ** The focal slice *)

Lemma sq_le_Rabs (a b : R) : a ^ 2 <= b ^ 2 <-> Rabs a <= Rabs b.
Proof.
  rewrite <- (pow2_abs a), <- (pow2_abs b).
  assert (0 <= Rabs a) by apply Rabs_pos. assert (0 <= Rabs b) by apply Rabs_pos.
  split; intros; nra.
Qed.

Lemma sq_lt_Rabs (a b : R) : a ^ 2 < b ^ 2 <-> Rabs a < Rabs b.
Proof.
  rewrite <- (pow2_abs a), <- (pow2_abs b).
  assert (0 <= Rabs a) by apply Rabs_pos. assert (0 <= Rabs b) by apply Rabs_pos.
  split; intros; nra.
Qed.

Section SliceLast.
Context {A : Type}.

Lemma slice_last_spec (a : list (list (list A))) (n0 n1 n2 k : nat) :
  Np.shape3 a n0 n1 n2 -> (k < n2)%nat ->
  exists sl, Np.slice_last a k = Some sl /\ Np.shape2 sl n0 n1 /\
    forall i j, Np.get2 sl i j = Np.get3 a i j k.
Proof.
  intros [Hlen Hall] Hk.
  assert (Hrow : forall p, p ∈ a ->
    exists r, mapM (fun row : list A => row !! k) p = Some r /\ length r = n1 /\
      forall j, r !! j = p !! j ≫= (fun row : list A => row !! k)).
  { intros p Hp. rewrite Forall_forall in Hall. destruct (Hall p Hp) as [Hp0 Hp1].
    destruct (mapM_is_Some_2 (fun row : list A => row !! k) p) as [r Hr].
    { eapply Forall_impl; [exact Hp1|]. intros row Hlenrow. simpl in *.
      apply lookup_lt_is_Some_2. rewrite Hlenrow. exact Hk. }
    exists r. split; [exact Hr|]. assert (Hr' := Hr). apply mapM_Some_1 in Hr'.
    split; [apply length_mapM in Hr; lia|].
    intros j. destruct (p !! j) as [row|] eqn:Hj; simpl.
    - destruct (Forall2_lookup_l _ _ _ _ _ Hr' Hj) as (c & Hc & Hrc). congruence.
    - apply lookup_ge_None. apply lookup_ge_None in Hj.
      apply length_mapM in Hr. lia. }
  destruct (mapM_is_Some_2 (fun p : list (list A) =>
              mapM (fun row : list A => row !! k) p) a) as [sl Hsl].
  { apply Forall_forall. intros p Hp. destruct (Hrow p Hp) as (r & Hr & _).
    simpl. rewrite Hr. eauto. }
  exists sl. split; [exact Hsl|]. assert (Hsl' := Hsl). apply mapM_Some_1 in Hsl'.
  split.
  - split; [apply length_mapM in Hsl; lia|]. apply Forall_lookup. intros i r Hr.
    destruct (Forall2_lookup_r _ _ _ _ _ Hsl' Hr) as (p & Hp & Hpr).
    destruct (Hrow p) as (r' & Hr' & Hlen' & _); [eapply list_elem_of_lookup_2, Hp|].
    congruence.
  - intros i j. unfold Np.get2, Np.get3.
    destruct (a !! i) as [p|] eqn:Hp; simpl.
    + destruct (Forall2_lookup_l _ _ _ _ _ Hsl' Hp) as (r & Hr & Hpr).
      rewrite Hr. simpl.
      destruct (Hrow p) as (r' & Hr' & _ & Hget); [eapply list_elem_of_lookup_2, Hp|].
      assert (r' = r) by congruence. subst r'. apply Hget.
    + rewrite (lookup_ge_None_2 sl i); [reflexivity|].
      apply lookup_ge_None in Hp. apply length_mapM in Hsl. lia.
Qed.
End SliceLast.

Lemma idx_first_nearest (um fs zR : R) (z_136 : list R) :
  z_136 <> [] ->
  exists i v,
    Script.idx um fs zR z_136 = Some i /\ z_136 !! i = Some v /\
    (forall j u, z_136 !! j = Some u ->
       Rabs (v - Script.zf_192 um fs zR) <= Rabs (u - Script.zf_192 um fs zR)) /\
    (forall j u, (j < i)%nat -> z_136 !! j = Some u ->
       Rabs (v - Script.zf_192 um fs zR) < Rabs (u - Script.zf_192 um fs zR)).
Proof.
  intros Hne.
  set (zf := Script.zf_192 um fs zR).
  set (d := (fun v : R => v ^ 2) <$> ((fun v : R => v - zf) <$> z_136)).
  destruct (argmin_is_Some d) as [i Hi].
  { unfold d. destruct z_136; [congruence|discriminate]. }
  destruct (argmin_first_min d i Hi) as (m & Hm & Hmin & Hfst).
  assert (Hd : forall j, d !! j = (fun v : R => (v - zf) ^ 2) <$> z_136 !! j).
  { intros j. unfold d. rewrite !list_lookup_fmap. destruct (z_136 !! j); reflexivity. }
  rewrite Hd in Hm. destruct (z_136 !! i) as [v|] eqn:Hv; [|discriminate].
  simpl in Hm. apply (inj Some) in Hm.
  exists i, v. split_and!.
  - exact Hi.
  - exact Hv.
  - intros j u Hu. apply sq_le_Rabs.
    replace ((v - zf) ^ 2) with m by (rewrite <- Hm; ring).
    apply (Hmin j). rewrite Hd, Hu. reflexivity.
  - intros j u Hj Hu. apply sq_lt_Rabs.
    replace ((v - zf) ^ 2) with m by (rewrite <- Hm; ring).
    apply (Hfst j); [exact Hj|]. rewrite Hd, Hu. reflexivity.
Qed.

(** For any z-grid with a point, [idx] of line 224 is an index of the
    grid, the first one whose point is nearest to the focus [zf]; on an
    empty grid [np.argmin] has no result. *)
Theorem idx_nearest_grid_point (um fs zR : R) (z_136 : list R) :
  z_136 <> [] ->
  Script.idx um fs zR [] = None /\
  exists i v,
    Script.idx um fs zR z_136 = Some i /\ z_136 !! i = Some v /\
    (forall j u, z_136 !! j = Some u ->
       Rabs (v - Script.zf_192 um fs zR) <= Rabs (u - Script.zf_192 um fs zR)) /\
    (forall j u, (j < i)%nat -> z_136 !! j = Some u ->
       Rabs (v - Script.zf_192 um fs zR) < Rabs (u - Script.zf_192 um fs zR)).
Proof.
  intros Hne. split; [reflexivity|]. apply idx_first_nearest, Hne.
Qed.

Lemma idx_nearest_grid_point_witness :
  exists i, Script.idx 1e-6 1e-15 1 [0; 1] = Some i.
Proof.
  destruct (idx_nearest_grid_point 1e-6 1e-15 1 [0; 1]) as (_ & i & v & Hi & _).
  - discriminate.
  - exists i. exact Hi.
Defined.

(** When the last axis of [Field] is as long as the z-grid, the focal
    slice of line 225 exists: it is the plane [Field[:, :, idx]], of the
    shape of the first two axes, taken at the grid point nearest to the
    focus. *)
Theorem focal_slice_exists (um fs zR : R) (z_136 : list R)
    (Field : list (list (list C))) (n0 n1 : nat) :
  z_136 <> [] ->
  Np.shape3 Field n0 n1 (length z_136) ->
  exists i sl,
    Script.idx um fs zR z_136 = Some i /\ (i < length z_136)%nat /\
    Script.focal_slice um fs zR Field z_136 = Some sl /\
    Np.shape2 sl n0 n1 /\
    forall a b, Np.get2 sl a b = Np.get3 Field a b i.
Proof.
  intros Hne Hsh.
  destruct (idx_first_nearest um fs zR z_136 Hne) as (i & v & Hi & Hv & _).
  assert (Hlt : (i < length z_136)%nat) by (eapply lookup_lt_Some; eauto).
  destruct (slice_last_spec Field n0 n1 (length z_136) i Hsh Hlt) as (sl & Hsl & Hshsl & Hget).
  exists i, sl. split_and!; try assumption.
  unfold Script.focal_slice. rewrite Hi. exact Hsl.
Qed.

Lemma focal_slice_exists_witness :
  exists sl, Script.focal_slice 1e-6 1e-15 1 [[[RtoC 1; RtoC 2]]] [0; 1] = Some sl.
Proof.
  destruct (focal_slice_exists 1e-6 1e-15 1 [0; 1] [[[RtoC 1; RtoC 2]]] 1 1)
    as (i & sl & _ & _ & Hsl & _).
  - discriminate.
  - split; [reflexivity|]. repeat constructor.
  - exists sl. exact Hsl.
Defined.

(** ** The oscillating field of line 211 *)








(** ** The input phase and the initial waist *)









(** ** The window of the plots *)

Lemma foldl_Rmin_le (f : list R) (v : R) : foldl Rmin v f <= v.
Proof.
  revert v. induction f as [|u f IH]; intros v; simpl; [lra|].
  etransitivity; [apply IH|apply Rmin_l].
Qed.

Lemma foldl_Rmin_lb (f : list R) (v u : R) : u ∈ f -> foldl Rmin v f <= u.
Proof.
  revert v. induction f as [|u' f IH]; intros v Hin; simpl.
  - inversion Hin.
  - apply elem_of_cons in Hin as [->|Hin]; [|apply IH, Hin].
    etransitivity; [apply foldl_Rmin_le|apply Rmin_r].
Qed.

(** [a.min()] and [a.max()] of an array that starts at its least and ends
    at its greatest entry. *)
Lemma min_max_ends (l : list R) (a b : R) :
  l !! 0%nat = Some a -> b ∈ l -> (forall u, u ∈ l -> a <= u <= b) ->
  min_max l = Some (a, b).
Proof.
  intros Ha Hb Hbound. destruct l as [|v l]; [discriminate|].
  injection Ha as ->. unfold min_max. cbn [Np.min Np.max mbind option_bind].
  f_equal. f_equal.
  - apply Rle_antisym; [apply foldl_Rmin_le|].
    destruct (foldl_Rmin_le l a) as [Hlt|Heq]; [|lra].
    exfalso. clear Hb.
    assert (Hmin : forall (f : list R) (w : R),
      (forall u, u ∈ f -> w <= u) -> foldl Rmin w f = w).
    { induction f as [|u f IH]; intros w Hw; [reflexivity|]. simpl.
      rewrite Rmin_left by (apply Hw, list_elem_of_here).
      apply IH. intros u' Hu'. apply Hw, list_elem_of_further, Hu'. }
    rewrite Hmin in Hlt; [lra|].
    intros u Hu. apply Hbound, list_elem_of_further, Hu.
  - apply Rle_antisym.
    + destruct (foldl_Rmax_in l a) as [->|Hin].
      * apply Hbound, list_elem_of_here.
      * apply Hbound, list_elem_of_further, Hin.
    + apply elem_of_cons in Hb as [->|Hb].
      * apply foldl_Rmax_ge.
      * apply foldl_Rmax_ub, Hb.
Qed.

Lemma min_max_x (um : R) : 0 < um -> min_max (Script.x um) = Some (- (256 * um), 256 * um).
Proof.
  intros Hum. apply min_max_ends.
  - rewrite lookup_x by lia. f_equal. simpl. lra.
  - apply (list_elem_of_lookup_2 _ 511). rewrite lookup_x by lia.
    f_equal. rewrite INR_511. field.
  - intros u Hu. apply list_elem_of_lookup in Hu as [i Hi].
    assert (Hlt : (i < 512)%nat) by (rewrite <- (length_x um); eapply lookup_lt_Some; eauto).
    rewrite lookup_x in Hi by exact Hlt. apply (inj Some) in Hi. subst u.
    assert (H0 : 0 <= INR i) by apply pos_INR.
    assert (H1 : INR i <= 511).
    { rewrite <- INR_511. apply le_INR. lia. }
    split.
    + assert (0 <= INR i * (512 * um / 511)); [|lra].
      apply Rmult_le_pos; [exact H0|]. lra.
    + assert (INR i * (512 * um / 511) <= 511 * (512 * um / 511)); [|lra].
      apply Rmult_le_compat_r; [lra|exact H1].
Qed.

Lemma min_max_z (zR : R) : 0 < zR -> min_max (Script.z zR) = Some (0, 6 * zR).
Proof.
  intros HzR. apply min_max_ends.
  - rewrite lookup_z by lia. f_equal. simpl. lra.
  - apply (list_elem_of_lookup_2 _ 511). rewrite lookup_z by lia.
    f_equal. rewrite INR_511. field.
  - intros u Hu. apply list_elem_of_lookup in Hu as [i Hi].
    assert (Hlt : (i < 512)%nat) by (rewrite <- (length_z zR); eapply lookup_lt_Some; eauto).
    rewrite lookup_z in Hi by exact Hlt. apply (inj Some) in Hi. subst u.
    assert (H0 : 0 <= INR i) by apply pos_INR.
    assert (H1 : INR i <= 511).
    { rewrite <- INR_511. apply le_INR. lia. }
    split.
    + apply Rmult_le_pos; [exact H0|]. lra.
    + assert (INR i * (6 * zR / 511) <= 511 * (6 * zR / 511)); [|lra].
      apply Rmult_le_compat_r; [lra|exact H1].
Qed.

(** The grids run from their first to their last point: [x] and [y] from
    [-256 um] to [256 um] and [z] from 0 to [6*zR]; so the extent of lines
    98 and 231 is the square of [-256, 256] in units of [1e6*um], and
    the aspect ratio of line 159, taken on the grid of line 71, is
    [6*zR/(512*um)]. *)
Theorem plot_window (um zR : R) :
  0 < um -> 0 < zR ->
  Script.x um !! 0%nat = Some (- (256 * um)) /\
  Script.x um !! 511%nat = Some (256 * um) /\
  Script.z zR !! 0%nat = Some 0 /\
  Script.z zR !! 511%nat = Some (6 * zR) /\
  (forall i j a b, (i < j)%nat ->
     Script.x um !! i = Some a -> Script.x um !! j = Some b -> a < b) /\
  (forall i j a b, (i < j)%nat ->
     Script.z zR !! i = Some a -> Script.z zR !! j = Some b -> a < b) /\
  Diag.extent (Script.x um) (Script.y um)
  = Some [- (256 * um) * 1e6; 256 * um * 1e6; - (256 * um) * 1e6; 256 * um * 1e6] /\
  Diag.asp (Script.z zR) (Script.y um) = Some (6 * zR / (512 * um)).
Proof.
  intros Hum HzR.
  assert (Hy : Script.y um = Script.x um) by reflexivity.
  split_and!.
  - rewrite lookup_x by lia. f_equal. simpl. lra.
  - rewrite lookup_x by lia. f_equal. rewrite INR_511. field.
  - rewrite lookup_z by lia. f_equal. simpl. lra.
  - rewrite lookup_z by lia. f_equal. rewrite INR_511. field.
  - intros i j a b Hij Ha Hb.
    assert (Hj : (j < 512)%nat) by (rewrite <- (length_x um); eapply lookup_lt_Some; eauto).
    rewrite lookup_x in Ha, Hb by lia. apply (inj Some) in Ha, Hb. subst a b.
    assert (INR i < INR j) by (apply lt_INR; exact Hij).
    assert (INR i * (512 * um / 511) < INR j * (512 * um / 511)); [|lra].
    apply Rmult_lt_compat_r; [lra|assumption].
  - intros i j a b Hij Ha Hb.
    assert (Hj : (j < 512)%nat) by (rewrite <- (length_z zR); eapply lookup_lt_Some; eauto).
    rewrite lookup_z in Ha, Hb by lia. apply (inj Some) in Ha, Hb. subst a b.
    assert (INR i < INR j) by (apply lt_INR; exact Hij).
    apply Rmult_lt_compat_r; [lra|assumption].
  - unfold Diag.extent. rewrite Hy, (min_max_x um Hum). reflexivity.
  - unfold Diag.asp. rewrite Hy, (min_max_x um Hum), (min_max_z zR HzR).
    cbn [mbind option_bind fst snd]. f_equal. field. lra.
Qed.

Lemma plot_window_witness :
  Diag.asp (Script.z 1) (Script.y 1e-6) = Some (6 * 1 / (512 * 1e-6)).
Proof.
  destruct (plot_window 1e-6 1) as (_ & _ & _ & _ & _ & _ & _ & H).
  - lra.
  - lra.
  - exact H.
Defined.

(** ** The threshold loop on the heap *)

Lemma bind_ret {A B} (a : A) (k : A -> M B) s : bind (ret a) k s = k a s.
Proof. reflexivity. Qed.

Lemma bind_lift_Some {A B} line e (a : A) (k : A -> M B) s :
  bind (lift line e (Some a)) k s = k a s.
Proof. reflexivity. Qed.

Lemma bind_lift_None {A B} line e (k : A -> M B) s :
  bind (lift line e None) k s
  = (inl e, State (heap s) (trace s ++ [Ev (OpLocal line) (Some e)])).
Proof. reflexivity. Qed.

Lemma bind_alloc {B} (a : ndarray) (k : loc -> M B) s :
  bind (alloc a) k s
  = k (fresh (dom (heap s))) (State (<[fresh (dom (heap s)) := a]> (heap s)) (trace s)).
Proof. reflexivity. Qed.

Lemma bind_load {A B} line (cast : ndarray -> option A) l (k : A -> M B) h tr a v :
  h !! l = Some a -> cast a = Some v ->
  bind (load line cast l) k (State h tr) = k v (State h tr).
Proof.
  intros Hl Hc. unfold bind, load. cbn [heap]. rewrite Hl. simpl. rewrite Hc.
  reflexivity.
Qed.

Lemma bind_store {B} l a (k : unit -> M B) s :
  bind (store l a) k s = k tt (State (<[l := a]> (heap s)) (trace s)).
Proof. reflexivity. Qed.

Lemma fresh_not_live (h : gmap loc ndarray) (l : loc) (a : ndarray) :
  h !! l = Some a -> fresh (dom h) <> l.
Proof.
  intros Hl E. apply (is_fresh (dom h)). rewrite E. apply elem_of_dom. eauto.
Qed.

(** One turn of the loop, run on a heap that holds the field and
    [thresh]: it computes the column as [thresh_body] does and writes it
    into [thresh]; it raises when the column or its maximum does not
    exist; it adds no event unless it raises, and leaves the field. *)
Lemma thresh_iter_on_heap (Field thresh : loc) (F : list (list (list C)))
    (T : list (list R)) (zi : nat) (st : state) :
  thresh <> Field ->
  heap st !! Field = Some (Arr3C F) ->
  heap st !! thresh = Some (Arr2R T) ->
  match Script.thresh_body F zi ≫= (fun f : list R => Np.set_column T zi f) with
  | Some T' =>
      exists st',
        thresh_iter Field thresh zi st = (inr tt, st') /\
        heap st' !! thresh = Some (Arr2R T') /\
        heap st' !! Field = Some (Arr3C F) /\
        trace st' = trace st
  | None =>
      exists e st',
        thresh_iter Field thresh zi st = (inl e, st') /\
        (e = IndexError \/ e = ValueError) /\
        heap st' !! Field = Some (Arr3C F)
  end.
Proof.
  intros Hne HF HT. destruct st as [h tr]. cbn [heap trace] in *.
  unfold thresh_iter, Script.thresh_body.
  rewrite (bind_load _ as3C _ _ _ _ _ _ HF eq_refl).
  destruct (Np.column3 F Script.mid zi) as [col|]; cbn [mbind option_bind].
  2:{ rewrite bind_lift_None. eexists _, _. split; [reflexivity|]. auto. }
  rewrite bind_lift_Some, bind_alloc.
  set (f1 := fresh (dom h)).
  assert (Hf1F : f1 <> Field) by (eapply fresh_not_live; eauto).
  assert (Hf1T : f1 <> thresh) by (eapply fresh_not_live; eauto).
  set (h1 := <[f1 := Arr1C col]> h).
  assert (H1f : h1 !! f1 = Some (Arr1C col)) by apply lookup_insert_eq.
  rewrite (bind_load _ as1C _ _ _ _ _ _ H1f eq_refl), bind_alloc. cbn [heap trace].
  set (f2 := fresh (dom h1)).
  assert (Hf2F : f2 <> Field).
  { eapply (fresh_not_live h1). unfold h1. rewrite lookup_insert_ne by exact Hf1F. eauto. }
  assert (Hf2T : f2 <> thresh).
  { eapply (fresh_not_live h1). unfold h1. rewrite lookup_insert_ne by exact Hf1T. eauto. }
  set (I := (fun c : C => Cmod c ^ 2) <$> col).
  set (h2 := <[f2 := Arr1R I]> h1).
  assert (H2f : h2 !! f2 = Some (Arr1R I)) by apply lookup_insert_eq.
  rewrite (bind_load _ as1R _ _ _ _ _ _ H2f eq_refl).
  destruct (Np.max I) as [top|]; cbn [mbind option_bind].
  2:{ rewrite bind_lift_None. eexists _, _. split; [reflexivity|]. split; [auto|].
      cbn [heap]. unfold h2, h1. rewrite !lookup_insert_ne by congruence. exact HF. }
  rewrite bind_lift_Some.
  rewrite (bind_load _ as1R _ _ _ _ _ _ H2f eq_refl), bind_store. cbn [heap trace].
  set (I1 := Np.assign_where (fun v : R => Script.leb v (top * Script.e_m2)) 0.0 I).
  set (h3 := <[f2 := Arr1R I1]> h2).
  assert (H3f : h3 !! f2 = Some (Arr1R I1)) by apply lookup_insert_eq.
  rewrite (bind_load _ as1R _ _ _ _ _ _ H3f eq_refl), bind_store. cbn [heap trace].
  set (I2 := Np.assign_where (fun v : R => Script.gtb v (top * Script.e_m2)) 1.0 I1).
  set (h4 := <[f2 := Arr1R I2]> h3).
  assert (H4f : h4 !! f2 = Some (Arr1R I2)) by apply lookup_insert_eq.
  assert (H4T : h4 !! thresh = Some (Arr2R T)).
  { unfold h4, h3, h2, h1. rewrite !lookup_insert_ne by congruence. exact HT. }
  assert (H4F : h4 !! Field = Some (Arr3C F)).
  { unfold h4, h3, h2, h1. rewrite !lookup_insert_ne by congruence. exact HF. }
  rewrite (bind_load _ as2R _ _ _ _ _ _ H4T eq_refl).
  rewrite (bind_load _ as1R _ _ _ _ _ _ H4f eq_refl).
  destruct (Np.set_column T zi I2) as [T'|].
  - rewrite bind_lift_Some. eexists. split; [reflexivity|]. cbn [heap trace].
    split_and!.
    + apply lookup_insert_eq.
    + rewrite lookup_insert_ne by exact Hne. exact H4F.
    + reflexivity.
  - rewrite bind_lift_None. eexists _, _. split; [reflexivity|]. split; [auto|].
    exact H4F.
Qed.

(** The loop of lines 181 to 187, run on a heap that holds the field at
    [Field] and an array at [thresh]: when the value-level loop
    [thresh_loop] has a result, the run completes, [thresh] holds that
    result, the field is as before and no event was added; when it has
    none, the run ends with an [IndexError] or a [ValueError], and the
    field is as before. *)
Theorem thresh_loop_on_heap (Field thresh : loc) (F : list (list (list C)))
    (zis : list nat) (T : list (list R)) (st : state) :
  thresh <> Field ->
  heap st !! Field = Some (Arr3C F) ->
  heap st !! thresh = Some (Arr2R T) ->
  match Script.thresh_loop F T zis with
  | Some T' =>
      exists st',
        for_each zis (thresh_iter Field thresh) st = (inr tt, st') /\
        heap st' !! thresh = Some (Arr2R T') /\
        heap st' !! Field = Some (Arr3C F) /\
        trace st' = trace st
  | None =>
      exists e st',
        for_each zis (thresh_iter Field thresh) st = (inl e, st') /\
        (e = IndexError \/ e = ValueError) /\
        heap st' !! Field = Some (Arr3C F)
  end.
Proof.
  intros Hne. revert T st. induction zis as [|zi zis IH]; intros T st HF HT.
  - simpl. exists st. auto.
  - cbn [Script.thresh_loop for_each].
    assert (Hit := thresh_iter_on_heap Field thresh F T zi st Hne HF HT).
    destruct (Script.thresh_body F zi) as [f|]; cbn [mbind option_bind] in *.
    + destruct (Np.set_column T zi f) as [T1|]; cbn [mbind option_bind].
      * destruct Hit as (st1 & Hrun & HT1 & HF1 & Htr1).
        rewrite (bind_inr _ _ _ _ _ Hrun).
        specialize (IH T1 st1 HF1 HT1).
        destruct (Script.thresh_loop F T1 zis) as [T'|].
        -- destruct IH as (st' & Hrun' & HT' & HF' & Htr').
           exists st'. split_and!; try assumption. congruence.
        -- exact IH.
      * destruct Hit as (e & st1 & Hrun & He & HF1).
        rewrite (bind_inl _ _ _ _ _ Hrun). eauto.
    + destruct Hit as (e & st1 & Hrun & He & HF1).
      rewrite (bind_inl _ _ _ _ _ Hrun). eauto.
Qed.

Lemma thresh_loop_on_heap_witness :
  exists st',
    for_each [O] (thresh_iter O 1%nat)
      (State (<[1%nat := Arr2R [[0]; [0]]]> {[O := Arr3C Field_4_1]}) [])
    = (inr tt, st').
Proof.
  assert (H := thresh_loop_on_heap O 1%nat Field_4_1 [O] [[0]; [0]]
                 (State (<[1%nat := Arr2R [[0]; [0]]]> {[O := Arr3C Field_4_1]}) [])).
  assert (Hloop : exists T', Script.thresh_loop Field_4_1 [[0]; [0]] [O] = Some T').
  { destruct (thresh_loop_spec Field_4_1 [O] [[0]; [0]] 2 1) as (T' & HT' & _).
    - split; [reflexivity|]. repeat constructor.
    - intros zi Hzi. apply list_elem_of_singleton in Hzi as ->. split; [lia|].
      destruct (thresh_body_spec Field_4_1 2 257 1 0 shape3_Field_4_1)
        as (col & top & _ & Hlen & _ & Hb); [lia|change Script.mid with 256%nat; lia|lia|].
      eexists. split; [exact Hb|]. rewrite !length_fmap. exact Hlen.
    - eauto. }
  destruct Hloop as (T' & HT'). rewrite HT' in H.
  destruct H as (st' & Hrun & _).
  - discriminate.
  - cbn [heap]. rewrite lookup_insert_ne by discriminate. apply lookup_singleton_eq.
  - cbn [heap]. apply lookup_insert_eq.
  - exists st'. exact Hrun.
Defined.

(** ** The sequence of calls of a run *)

Lemma follows_intro {A} (ops : list op) (m : M A) :
  (forall s, exists evs,
     trace (snd (m s)) = trace s ++ evs /\
     match fst (m s) with
     | inr _ => ev_op <$> evs = ops
     | inl _ =>
         exists pre, pre `prefix_of` ops /\
           (ev_op <$> evs = pre \/ exists line, ev_op <$> evs = pre ++ [OpLocal line])
     end) ->
  follows ops m.
Proof.
  intros H s. destruct (H s) as (evs & Htr & Hout).
  assert (Hev : events_of m s = evs).
  { unfold events_of. rewrite Htr. apply drop_app_length. }
  rewrite Hev. auto.
Qed.

Lemma follows_ret {A} (a : A) : follows [] (ret a).
Proof.
  apply follows_intro. intros s. exists []. simpl. rewrite app_nil_r. auto.
Qed.

Lemma follows_bind {A B} ops1 ops2 (m : M A) (k : A -> M B) :
  follows ops1 m -> (forall a, follows ops2 (k a)) -> follows (ops1 ++ ops2) (bind m k).
Proof.
  intros Hm Hk. apply follows_intro. intros s.
  destruct (Hm s) as (Htr1 & Hout1). unfold bind.
  destruct (m s) as [[e|a] s1] eqn:E; cbn [fst snd] in *.
  - exists (events_of m s). split; [exact Htr1|].
    destruct Hout1 as (pre & Hpre & Hev). exists pre. split; [|exact Hev].
    apply prefix_app_r, Hpre.
  - destruct (Hk a s1) as (Htr2 & Hout2).
    exists (events_of m s ++ events_of (k a) s1). split.
    + rewrite Htr2, Htr1, app_assoc. reflexivity.
    + rewrite fmap_app, Hout1. destruct (fst (k a s1)) as [e|b].
      * destruct Hout2 as (pre & Hpre & Hev). exists (ops1 ++ pre). split.
        -- apply prefix_app, Hpre.
        -- destruct Hev as [->|(line & ->)]; [left; reflexivity|].
           right. exists line. rewrite app_assoc. reflexivity.
      * rewrite Hout2. reflexivity.
Qed.

Lemma follows_call {A} (o : op) (f : ext A) : follows [o] (call o f).
Proof.
  apply follows_intro. intros s. exists [Ev o (outcome (fst (f (heap s))))].
  unfold call. cbn [fst snd trace]. split; [reflexivity|].
  destruct (fst (f (heap s))); [|reflexivity].
  exists [o]. split; [reflexivity|]. left. reflexivity.
Qed.

Lemma follows_lift {A} line e (v : option A) : follows [] (lift line e v).
Proof.
  destruct v; [apply follows_ret|]. apply follows_intro. intros s.
  exists [Ev (OpLocal line) (Some e)]. cbn. split; [reflexivity|].
  exists []. split; [reflexivity|]. right. exists line. reflexivity.
Qed.

Lemma follows_load {A} line (cast : ndarray -> option A) l : follows [] (load line cast l).
Proof.
  intros s. unfold events_of, load.
  apply (follows_lift line TypeError (heap s !! l ≫= cast) s).
Qed.

Lemma follows_alloc a : follows [] (alloc a).
Proof.
  apply follows_intro. intros s. exists []. simpl. rewrite app_nil_r. auto.
Qed.

Lemma follows_store l a : follows [] (store l a).
Proof.
  apply follows_intro. intros s. exists []. simpl. rewrite app_nil_r. auto.
Qed.

Lemma follows_loop {A} (l : list A) (body : A -> M unit) :
  (forall a, follows [] (body a)) -> follows [] (for_each l body).
Proof.
  intros Hb. induction l as [|a l IH]; simpl; [apply follows_ret|].
  apply (follows_bind [] []); [apply Hb|]. intros _. exact IH.
Qed.

Lemma follows_plots plot_fails lines : follows (OpPlot <$> lines) (plots plot_fails lines).
Proof.
  unfold plots. induction lines as [|line lines IH]; simpl; [apply follows_ret|].
  apply (follows_bind [OpPlot line]); [apply follows_call|]. intros _. exact IH.
Qed.

Ltac follows_step :=
  lazymatch goal with
  | |- follows _ (bind _ _) => eapply follows_bind; [|intros ?]
  | |- follows _ (ret _) => apply follows_ret
  | |- follows _ (call _ _) => apply follows_call
  | |- follows _ (lift _ _ _) => apply follows_lift
  | |- follows _ (load _ _ _) => apply follows_load
  | |- follows _ (alloc _) => apply follows_alloc
  | |- follows _ (store _ _) => apply follows_store
  | |- follows _ (plots _ _) => apply follows_plots
  | |- follows _ (for_each _ _) => apply follows_loop; intros ?
  end.

Lemma follows_thresh_iter Field thresh zi : follows [] (thresh_iter Field thresh zi).
Proof.
  unfold thresh_iter.
  change (@nil op) with (@nil op ++ ([] ++ ([] ++ ([] ++ ([] ++ ([] ++ ([] ++ ([] ++
    ([] ++ ([] ++ ([] ++ ([] ++ ([] ++ ([] ++ [])))))))))))))).
  repeat follows_step.
Qed.

(** Every run of the script follows one sequence of calls, whatever the
    library does: a run that completes made exactly the calls of
    [completed_run], in that order; a run that raised made a first part of
    them, ending with the call that raised or followed by the operation
    of the script itself that raised.  Of these calls, eleven go into the
    library: [get_zr], [make_inputBeam], [shadow], [phase],
    [setup_propagate], [propagate_in_z], [explorer], [shadow], [phase],
    [MidpointNormalize] and [shadow], each at one place of the sequence. *)
Theorem run_follows_one_sequence
    (um fs : R) (get_zr : LP.t -> ext R)
    (make_inputBeam : loc -> loc -> LP.t -> ext loc)
    (shadow phase : aref -> ext loc)
    (setup_propagate : loc -> loc -> loc -> loc -> loc -> R -> R -> nat -> ext sp_out)
    (propagate_in_z :
       loc -> loc -> loc -> loc -> loc -> loc -> loc -> loc -> loc -> R -> ext loc)
    (explorer : loc -> loc -> loc -> ext loc)
    (MidpointNormalize : R -> R -> R -> ext loc)
    (import_fails : string -> option exn)
    (plot_fails : nat -> gmap loc ndarray -> option exn) :
  follows completed_run
    (script um fs get_zr make_inputBeam shadow phase setup_propagate propagate_in_z
       explorer MidpointNormalize import_fails plot_fails) /\
  filter (fun o => is_library o = true) completed_run
  = [OpGetZr; OpMakeInputBeam; OpShadow; OpPhase; OpSetupPropagate; OpPropagateInZ;
     OpExplorer; OpShadow; OpPhase; OpMidpointNormalize; OpShadow].
Proof.
  split; [|reflexivity].
  assert (H : exists ops,
    follows ops
      (script um fs get_zr make_inputBeam shadow phase setup_propagate propagate_in_z
         explorer MidpointNormalize import_fails plot_fails) /\
    ops = completed_run).
  { eexists. split.
    - unfold script, setup, imports, propagate, analysis, import, plot, mid_view,
        extent_zy, divide_by. cbv zeta.
      repeat first [ apply follows_thresh_iter | follows_step ].
    - reflexivity. }
  destruct H as (ops & Hf & <-). exact Hf.
Qed.

(** ** The arrays the script writes *)




